(** * pymc3.distributions.transforms: transforms between constrained and
      unconstrained spaces

    A shallow embedding of [pymc3/distributions/transforms.py].

    - Tensor values are tensors of exact real numbers: every arithmetic
      primitive of the tensor engine ([aet.exp], [aet.log], [aet.sum],
      ...) is read as the mathematical function it approximates, so an
      equation proved here is the identity that the floating-point
      program satisfies up to rounding.  Outside the domain of a
      primitive (the logarithm of a number that is not positive) the
      real function has an arbitrary value where the program has an
      infinity or a NaN; no property below relies on such a value.
    - A tensor expression stands for the value it evaluates to, and a
      Python exception is an explicit result.
    - Every transform class is a module of methods, and a transform
      object is a record of its name and methods, so that Chain can hold
      objects of any class. *)

From Stdlib Require Import String.
From Stdlib Require Import Reals List Bool Arith Lia Lra.
Import ListNotations.
Open Scope R_scope.

(** ** Exceptions *)

Inductive exn : Type :=
| NotImplementedError
| IndexError
| ValueError.

Inductive result (A : Type) : Type :=
| Ok (a : A)
| Raise (e : exn).

Arguments Ok {A} a.
Arguments Raise {A} e.

Definition bind {A B : Type} (m : result A) (k : A -> result B) : result B :=
  match m with
  | Ok a => k a
  | Raise e => Raise e
  end.

Definition fmap {A B : Type} (f : A -> B) (m : result A) : result B :=
  bind m (fun a => Ok (f a)).

Notation "x <- m ;; k" := (bind m (fun x => k))
  (at level 61, m at next level, right associativity).

(** [mapM] and [zipM] run a raising function over one list, or over two
    lists of equal length, left to right, and stop at the first
    exception. *)
Definition mapM {A B : Type} (f : A -> result B) : list A -> result (list B) :=
  fix go (l : list A) : result (list B) :=
    match l with
    | [] => Ok []
    | a :: l' => b <- f a ;; bs <- go l' ;; Ok (b :: bs)
    end.

Definition zipM {A B C : Type} (f : A -> B -> result C)
  : list A -> list B -> result (list C) :=
  fix go (l1 : list A) (l2 : list B) : result (list C) :=
    match l1, l2 with
    | [], [] => Ok []
    | a :: l1', b :: l2' => c <- f a b ;; cs <- go l1' l2' ;; Ok (c :: cs)
    | _, _ => Raise ValueError
    end.

(** ** Tensors

    A tensor is a scalar (rank 0) or an array of tensors along its
    leading axis.  The empty array has rank 1. *)

Unset Elimination Schemes.
Inductive tensor : Type :=
| Scal (r : R)
| Arr (ts : list tensor).
Set Elimination Schemes.

Fixpoint ndim (t : tensor) : nat :=
  match t with
  | Scal _ => 0
  | Arr [] => 1
  | Arr (c :: _) => S (ndim c)
  end.

(** A vector: the rank-1 tensor of the given entries. *)
Definition vec (l : list R) : tensor := Arr (map Scal l).

Definition is_scal (t : tensor) : bool :=
  match t with Scal _ => true | Arr _ => false end.

Definition item (t : tensor) : R :=
  match t with Scal r => r | Arr _ => 0 end.

(** Elementwise application of a unary primitive. *)
Fixpoint tmap (f : R -> R) (t : tensor) : tensor :=
  match t with
  | Scal r => Scal (f r)
  | Arr ts => Arr (map (tmap f) ts)
  end.

(** Elementwise application of a binary primitive, with numpy's
    broadcasting: shapes are aligned on their trailing axes, the operand of
    lower rank is repeated along the leading axes of the other one, and an
    axis of length 1 is repeated along an axis of any length.  Other shape
    mismatches raise. *)
Fixpoint tbin (f : R -> R -> R) (t1 : tensor) {struct t1}
  : tensor -> result tensor :=
  fix tbin1 (t2 : tensor) {struct t2} : result tensor :=
    match t1, t2 with
    | Scal a, Scal b => Ok (Scal (f a b))
    | Scal _, Arr l2 => fmap Arr (mapM tbin1 l2)
    | Arr l1, Scal _ => fmap Arr (mapM (fun c => tbin f c t2) l1)
    | Arr l1, Arr l2 =>
        match Nat.compare (ndim t1) (ndim t2) with
        | Lt => fmap Arr (mapM tbin1 l2)
        | Gt => fmap Arr (mapM (fun c => tbin f c t2) l1)
        | Eq =>
            if Nat.eqb (length l1) (length l2)
            then fmap Arr (zipM (tbin f) l1 l2)
            else
              match l1, l2 with
              | [c], _ => fmap Arr (mapM (tbin f c) l2)
              | _, [c] => fmap Arr (mapM (fun d => tbin f d c) l1)
              | _, _ => Raise ValueError
              end
        end
    end.

Definition tadd : tensor -> tensor -> result tensor := tbin Rplus.
Definition tsub : tensor -> tensor -> result tensor := tbin Rminus.
Definition tmul : tensor -> tensor -> result tensor := tbin Rmult.

(** [aet.zeros(x.shape)] *)
Definition zeros_like (x : tensor) : tensor := tmap (fun _ => 0) x.

(** An operation written with [...] or [axis=-1] acts on every row along
    the trailing axis, whatever the leading axes are.  A rank-0 tensor has
    no trailing axis. *)
Fixpoint rows (g : list R -> result tensor) (t : tensor) : result tensor :=
  match t with
  | Scal _ => Raise IndexError
  | Arr ts =>
      if forallb is_scal ts then g (map item ts)
      else fmap Arr (mapM (rows g) ts)
  end.

Definition Rsum (l : list R) : R := fold_right Rplus 0 l.

(** A reduction along an axis ([aet.sum(t, axis=-1)] and the like) is
    refused with a ValueError by a tensor of rank 0, which has no axis;
    on any other tensor it acts on every row along the trailing axis. *)
Definition reduce_rows (g : list R -> result tensor) (t : tensor)
  : result tensor :=
  match t with
  | Scal _ => Raise ValueError
  | Arr _ => rows g t
  end.

(** [t.sum(axis=-1)] *)
Definition sum_last : tensor -> result tensor :=
  reduce_rows (fun r => Ok (Scal (Rsum r))).

(** The entries of a tensor in row-major order, and the tensor with the
    layout of [like] holding the given entries. *)
Fixpoint flatten (t : tensor) : list R :=
  match t with
  | Scal r => [r]
  | Arr ts => flat_map flatten ts
  end.

Fixpoint refill (like : tensor) (l : list R) : result (tensor * list R) :=
  match like with
  | Scal _ =>
      match l with
      | [] => Raise ValueError
      | r :: l' => Ok (Scal r, l')
      end
  | Arr ts =>
      p <- (fix go (ts : list tensor) (l : list R)
              : result (list tensor * list R) :=
              match ts with
              | [] => Ok ([], l)
              | c :: ts' =>
                  p <- refill c l ;;
                  q <- go ts' (snd p) ;;
                  Ok (fst p :: fst q, snd q)
              end) ts l ;;
      Ok (Arr (fst p), snd p)
  end.

(** ** Primitives of the tensor engine *)

Definition softplus (x : R) : R := ln (1 + exp x).
Definition sigmoid (x : R) : R := / (1 + exp (- x)).

(** [arctan2(y, x)]: the angle in (-PI, PI] of the point (x, y). *)
Definition arctan2 (y x : R) : R :=
  if Rlt_dec 0 x then atan (y / x)
  else if Rlt_dec x 0 then
         if Rle_dec 0 y then atan (y / x) + PI else atan (y / x) - PI
  else if Rlt_dec 0 y then PI / 2
  else if Rlt_dec y 0 then - (PI / 2)
  else 0.

Module aet.
Definition exp : tensor -> tensor := tmap exp.
Definition log : tensor -> tensor := tmap ln.
Definition abs_ : tensor -> tensor := tmap Rabs.
Definition sin : tensor -> tensor := tmap sin.
Definition cos : tensor -> tensor := tmap cos.
Definition neg : tensor -> tensor := tmap Ropp.
Definition zeros : tensor -> tensor := zeros_like.
Definition as_tensor_variable (x : tensor) : tensor := x.
(** [aet.sum(x)] without an axis adds up every entry. *)
Definition sum (x : tensor) : tensor := Scal (Rsum (flatten x)).
(** [aet.reshape(g, x.shape)] *)
Definition reshape (g like : tensor) : result tensor :=
  p <- refill like (flatten g) ;;
  match snd p with
  | [] => Ok (fst p)
  | _ :: _ => Raise ValueError
  end.
Definition arctan2 (y x : tensor) : result tensor := tbin arctan2 y x.
Module nnet.
Definition softplus : tensor -> tensor := tmap softplus.
Definition sigmoid : tensor -> tensor := tmap sigmoid.
End nnet.
End aet.

(** A Python number on one side of an arithmetic operator acts on every
    entry of the tensor on the other side. *)
Definition rsub (c : R) (t : tensor) : tensor := tmap (fun v => c - v) t.
Definition rmul (c : R) (t : tensor) : tensor := tmap (fun v => c * v) t.

(** Modelled from the spec: [pymc3.math.logit] and [pymc3.math.invlogit]
    are not under src/.  The spec gives LogOdds.forward as logit(x) and
    LogOdds.backward as sigmoid(y), which is [invlogit] at the margin 0.0
    of its only call; the margin shrinks the range of the sigmoid by [eps]
    at both ends. *)
Definition logit (x : tensor) : tensor := tmap (fun p => ln (p / (1 - p))) x.
Definition invlogit (x : tensor) (eps : R) : tensor :=
  tmap (fun v => (1 - 2 * eps) / (1 + Rtrigo_def.exp (- v)) + eps) x.

(** ** The Transform interface

    A transform object: its name and its three methods. *)
Record Transform : Type := mkTransform {
  name : string;
  forward : tensor -> result tensor;
  backward : tensor -> result tensor;
  jacobian_det : tensor -> result tensor
}.

(** The methods of the abstract base class. *)
Module Transform.
Definition name : string := "".
Definition forward (x : tensor) : result tensor := Raise NotImplementedError.
Definition backward (z : tensor) : result tensor := Raise NotImplementedError.
Definition jacobian_det (x : tensor) : result tensor :=
  Raise NotImplementedError.
End Transform.

(** [transform()]: an object of the base class, [transform] being the
    source's other name for the class. *)
Definition transform : Transform :=
  mkTransform Transform.name Transform.forward Transform.backward
              Transform.jacobian_det.

Section Autodiff.
(** Modelled from the spec: [pymc3.aesaraf.gradient] is not under src/.
    [gradient f x] is the gradient at [x] of the scalar-valued
    expression [f], as the autodiff engine delivers it. *)
Variable gradient : (tensor -> result tensor) -> tensor -> result tensor.

Definition ElemwiseTransform_jacobian_det
    (backward : tensor -> result tensor) (x : tensor) : result tensor :=
  g <- gradient (fun x => fmap aet.sum (backward x)) x ;;
  grad <- aet.reshape g x ;;
  Ok (aet.log (aet.abs_ grad)).
End Autodiff.

Module Log.
Definition name : string := "log".
Definition backward (x : tensor) : result tensor := Ok (aet.exp x).
Definition forward (x : tensor) : result tensor := Ok (aet.log x).
Definition jacobian_det (x : tensor) : result tensor := Ok x.
End Log.

Definition log : Transform :=
  mkTransform Log.name Log.forward Log.backward Log.jacobian_det.

Module LogExpM1.
Definition name : string := "log_exp_m1".
Definition backward (x : tensor) : result tensor :=
  Ok (aet.nnet.softplus x).
Definition forward (x : tensor) : result tensor :=
  tadd (aet.log (rsub 1 (aet.exp (aet.neg x)))) x.
Definition jacobian_det (x : tensor) : result tensor :=
  Ok (aet.neg (aet.nnet.softplus (aet.neg x))).
End LogExpM1.

Definition log_exp_m1 : Transform :=
  mkTransform LogExpM1.name LogExpM1.forward LogExpM1.backward
              LogExpM1.jacobian_det.

Module LogOdds.
Definition name : string := "logodds".
Definition backward (x : tensor) : result tensor := Ok (invlogit x 0).
Definition forward (x : tensor) : result tensor := Ok (logit x).
End LogOdds.

Definition logodds gradient : Transform :=
  mkTransform LogOdds.name LogOdds.forward LogOdds.backward
              (ElemwiseTransform_jacobian_det gradient LogOdds.backward).

Module Interval.
Definition name : string := "interval".
Definition backward (a b x : tensor) : result tensor :=
  let sigmoid_x := aet.nnet.sigmoid x in
  p <- tmul sigmoid_x b ;;
  q <- tmul (rsub 1 sigmoid_x) a ;;
  tadd p q.
Definition forward (a b x : tensor) : result tensor :=
  u <- tsub x a ;;
  v <- tsub b x ;;
  tsub (aet.log u) (aet.log v).
Definition jacobian_det (a b x : tensor) : result tensor :=
  let s := aet.nnet.softplus (aet.neg x) in
  d <- tsub b a ;;
  e <- tsub (aet.log d) (rmul 2 s) ;;
  tsub e x.
End Interval.

Definition interval (a b : tensor) : Transform :=
  mkTransform Interval.name (Interval.forward a b) (Interval.backward a b)
              (Interval.jacobian_det a b).

Module LowerBound.
Definition name : string := "lowerbound".
Definition backward (a x : tensor) : result tensor := tadd (aet.exp x) a.
Definition forward (a x : tensor) : result tensor :=
  u <- tsub x a ;; Ok (aet.log u).
Definition jacobian_det (a x : tensor) : result tensor := Ok x.
End LowerBound.

Definition lowerbound (a : tensor) : Transform :=
  mkTransform LowerBound.name (LowerBound.forward a) (LowerBound.backward a)
              (LowerBound.jacobian_det a).

Module UpperBound.
Definition name : string := "upperbound".
Definition backward (b x : tensor) : result tensor := tsub b (aet.exp x).
Definition forward (b x : tensor) : result tensor :=
  u <- tsub b x ;; Ok (aet.log u).
Definition jacobian_det (b x : tensor) : result tensor := Ok x.
End UpperBound.

Definition upperbound (b : tensor) : Transform :=
  mkTransform UpperBound.name (UpperBound.forward b) (UpperBound.backward b)
              (UpperBound.jacobian_det b).

Module Circular.
Definition name : string := "circular".
Definition backward (y : tensor) : result tensor :=
  aet.arctan2 (aet.sin y) (aet.cos y).
Definition forward (x : tensor) : result tensor :=
  Ok (aet.as_tensor_variable x).
Definition jacobian_det (x : tensor) : result tensor := Ok (aet.zeros x).
End Circular.

Definition circular : Transform :=
  mkTransform Circular.name Circular.forward Circular.backward
              Circular.jacobian_det.

(** ** Transforms along the trailing axis

    The bodies below are written for one row along the trailing axis and
    are applied to every row by [rows]. *)

(** [l[0]] *)
Definition getitem0 (l : list R) : result R :=
  match l with
  | [] => Raise IndexError
  | a :: _ => Ok a
  end.

(** [inc_subtensor(x[0], v)] *)
Definition inc_subtensor0 (x : list R) (v : R) : result (list R) :=
  match x with
  | [] => Raise IndexError
  | a :: x' => Ok ((a + v) :: x')
  end.

(** [inc_subtensor(x[1:], vs)] *)
Definition inc_subtensor_from1 (x vs : list R) : list R :=
  match x with
  | [] => []
  | a :: x' => a :: map (fun p => fst p + snd p) (combine x' vs)
  end.

(** [cumsum(x)] *)
Fixpoint cumsum_from (acc : R) (x : list R) : list R :=
  match x with
  | [] => []
  | a :: x' => (acc + a) :: cumsum_from (acc + a) x'
  end.

Definition cumsum (x : list R) : list R := cumsum_from 0 x.

(** [max(l)] *)
Definition Rmax_list (l : list R) : result R :=
  match l with
  | [] => Raise ValueError
  | a :: l' => Ok (fold_left Rmax l' a)
  end.

Module Ordered.
Definition name : string := "ordered".

Definition backward_row (y : list R) : result tensor :=
  let x := map (fun _ => 0) y in
  y0 <- getitem0 y ;;
  x <- inc_subtensor0 x y0 ;;
  let x := inc_subtensor_from1 x (map exp (tl y)) in
  Ok (vec (cumsum x)).
Definition backward : tensor -> result tensor := rows backward_row.

Definition forward_row (x : list R) : result tensor :=
  let y := map (fun _ => 0) x in
  x0 <- getitem0 x ;;
  y <- inc_subtensor0 y x0 ;;
  let d := map (fun p => fst p - snd p) (combine (tl x) (removelast x)) in
  let y := inc_subtensor_from1 y (map ln d) in
  Ok (vec y).
Definition forward : tensor -> result tensor := rows forward_row.

Definition jacobian_det : tensor -> result tensor :=
  rows (fun y => Ok (Scal (Rsum (tl y)))).
End Ordered.

Definition ordered : Transform :=
  mkTransform Ordered.name Ordered.forward Ordered.backward
              Ordered.jacobian_det.

Module SumTo1.
Definition name : string := "sumto1".

Definition backward_row (y : list R) : result tensor :=
  let remaining := [1 - Rsum y] in
  Ok (vec (y ++ remaining)).
Definition backward : tensor -> result tensor := rows backward_row.

Definition forward : tensor -> result tensor :=
  rows (fun x => Ok (vec (removelast x))).

Definition jacobian_det (x : tensor) : result tensor :=
  let y := aet.zeros x in
  sum_last y.
End SumTo1.

Definition sum_to_1 : Transform :=
  mkTransform SumTo1.name SumTo1.forward SumTo1.backward SumTo1.jacobian_det.

(** Modelled from the spec: [pymc3.math.logsumexp] is not under src/; the
    spec names it the log-sum-exp of its argument. *)
Definition logsumexp (r : list R) : R := ln (Rsum (map exp r)).

(** The methods of StickBreaking transpose their argument, work along
    axis 0 and transpose the result back: axis 0 of the transposed tensor
    is the trailing axis of the argument, so every row along the trailing
    axis is transformed on its own.  Each method sums along axis 0
    before it reads any entry, so a tensor of rank 0 is refused with a
    ValueError.  [floatX] casts to the float type. *)
Module StickBreaking.
Definition name : string := "stickbreaking".

Definition forward_row (x : list R) : result tensor :=
  let n := length x in
  let lx := map ln x in
  let shift := Rsum lx / INR n in
  let y := map (fun v => v - shift) (removelast lx) in
  Ok (vec y).
Definition forward : tensor -> result tensor := reduce_rows forward_row.

Definition backward_row (y : list R) : result tensor :=
  let y := y ++ [- Rsum y] in
  m <- Rmax_list y ;;
  let e_y := map (fun v => exp (v - m)) y in
  let x := map (fun v => v / Rsum e_y) e_y in
  Ok (vec x).
Definition backward : tensor -> result tensor :=
  reduce_rows backward_row.

Definition jacobian_det_row (y : list R) : result tensor :=
  let Km1 := INR (length y + 1) in
  let sy := Rsum y in
  let r := map (fun v => v + sy) y ++ [0] in
  let sr := logsumexp r in
  let d := ln Km1 + Km1 * sy - Km1 * sr in
  Ok (Scal d).
Definition jacobian_det : tensor -> result tensor :=
  reduce_rows jacobian_det_row.
End StickBreaking.

Definition stick_breaking : Transform :=
  mkTransform StickBreaking.name StickBreaking.forward StickBreaking.backward
              StickBreaking.jacobian_det.

(** ** CholeskyCovPacked: indexing along the leading axis *)

Fixpoint cumsum_nat (acc : nat) (l : list nat) : list nat :=
  match l with
  | [] => []
  | a :: l' => (acc + a)%nat :: cumsum_nat (acc + a)%nat l'
  end.

(** [x[idxs]] *)
Definition take (x : tensor) (idxs : list nat) : result tensor :=
  match x with
  | Scal _ => Raise IndexError
  | Arr ts =>
      fmap Arr (mapM (fun i => match nth_error ts i with
                               | Some c => Ok c
                               | None => Raise IndexError
                               end) idxs)
  end.

Fixpoint set_nth (ts : list tensor) (i : nat) (v : tensor)
  : result (list tensor) :=
  match ts, i with
  | [], _ => Raise IndexError
  | _ :: ts', O => Ok (v :: ts')
  | c :: ts', S i' => fmap (cons c) (set_nth ts' i' v)
  end.

(** [aet.advanced_set_subtensor1(x, y, idxs)]: a copy of [x] with
    [x[idxs[k]]] replaced by [y[k]]. *)
Definition advanced_set_subtensor1 (x y : tensor) (idxs : list nat)
  : result tensor :=
  match x, y with
  | Arr ts, Arr vs =>
      fmap Arr
        (fold_left (fun acc p => ts' <- acc ;; set_nth ts' (fst p) (snd p))
                   (combine idxs vs) (Ok ts))
  | _, _ => Raise IndexError
  end.

Module CholeskyCovPacked.
Definition name : string := "cholesky-cov-packed".

(** [np.arange(1, n + 1).cumsum() - 1] *)
Definition diag_idxs (n : nat) : list nat :=
  map (fun c => (c - 1)%nat) (cumsum_nat 0 (seq 1 n)).

Definition backward (n : nat) (x : tensor) : result tensor :=
  d <- take x (diag_idxs n) ;;
  advanced_set_subtensor1 x (aet.exp d) (diag_idxs n).

Definition forward (n : nat) (y : tensor) : result tensor :=
  d <- take y (diag_idxs n) ;;
  advanced_set_subtensor1 y (aet.log d) (diag_idxs n).

Definition jacobian_det (n : nat) (y : tensor) : result tensor :=
  d <- take y (diag_idxs n) ;;
  Ok (aet.sum d).
End CholeskyCovPacked.

Definition cholesky_cov_packed (n : nat) : Transform :=
  mkTransform CholeskyCovPacked.name (CholeskyCovPacked.forward n)
              (CholeskyCovPacked.backward n)
              (CholeskyCovPacked.jacobian_det n).

(** ** Chain *)

Module Chain.
Definition name (transform_list : list Transform) : string :=
  String.concat "+" (map name transform_list).

(** The body of the first loop of [jacobian_det]: its state is the list
    of per-child values, the current value and the running minimum. *)
Definition walk_step (st : result (list tensor * tensor * nat))
    (transf : Transform) : result (list tensor * tensor * nat) :=
  st <- st ;;
  let '(det_list, y, ndim0) := st in
  det_ <- jacobian_det transf y ;;
  let det_list := det_list ++ [det_] in
  y <- backward transf y ;;
  let ndim0 := Nat.min ndim0 (ndim det_) in
  Ok (det_list, y, ndim0).

(** The body of the second loop: the running total. *)
Definition total_step (ndim0 : nat) (det : result tensor) (det_ : tensor)
  : result tensor :=
  det <- det ;;
  if (ndim0 <? ndim det_)%nat
  then s <- sum_last det_ ;; tadd det s
  else tadd det det_.

Definition forward (transform_list : list Transform) (x : tensor)
  : result tensor :=
  fold_left (fun y transf => y <- y ;; forward transf y)
            transform_list (Ok x).

Definition backward (transform_list : list Transform) (y : tensor)
  : result tensor :=
  fold_left (fun x transf => x <- x ;; backward transf x)
            (rev transform_list) (Ok y).

(** The total starts as the Python number 0.0, which enters the first
    addition as the rank-0 tensor 0.  With no child the source returns
    that number itself, here the rank-0 tensor 0: the two differ only
    when such a Chain is in turn a child of a Chain, where the source
    fails on the number, which has no [ndim]. *)
Definition jacobian_det (transform_list : list Transform) (y : tensor)
  : result tensor :=
  let y := aet.as_tensor_variable y in
  let det_list := [] in
  let ndim0 := ndim y in
  st <- fold_left walk_step (rev transform_list) (Ok (det_list, y, ndim0)) ;;
  let '(det_list, _, ndim0) := st in
  let det := Scal 0 in
  fold_left (total_step ndim0) det_list (Ok det).
End Chain.

Definition Chain (transform_list : list Transform) : Transform :=
  mkTransform (Chain.name transform_list) (Chain.forward transform_list)
              (Chain.backward transform_list)
              (Chain.jacobian_det transform_list).

(** * Vocabulary of the specification *)

(** Every entry of the tensor satisfies [P]. *)
Definition entries (P : R -> Prop) (t : tensor) : Prop :=
  Forall P (flatten t).

(** The tensor has a trailing axis and every row along it satisfies [P]. *)
Fixpoint all_rows (P : list R -> Prop) (t : tensor) : Prop :=
  match t with
  | Scal _ => False
  | Arr ts =>
      if forallb is_scal ts then P (map item ts)
      else (fix go (ts : list tensor) : Prop :=
              match ts with
              | [] => True
              | c :: ts' => all_rows P c /\ go ts'
              end) ts
  end.

(** Every entry is related to the entry that follows it. *)
Fixpoint adjacent (rel : R -> R -> Prop) (l : list R) : Prop :=
  match l with
  | a :: (b :: _) as l' => rel a b /\ adjacent rel l'
  | _ => True
  end.

(** The concrete transforms, with scalar bounds for the bounded ones. *)
Inductive concrete : Type :=
| CLog
| CLogExpM1
| CLogOdds
| CInterval (a b : R)
| CLowerBound (a : R)
| CUpperBound (b : R)
| COrdered
| CSumTo1
| CStickBreaking
| CCircular
| CCholeskyCovPacked (n : nat).

Definition instance gradient (T : concrete) : Transform :=
  match T with
  | CLog => log
  | CLogExpM1 => log_exp_m1
  | CLogOdds => logodds gradient
  | CInterval a b => interval (Scal a) (Scal b)
  | CLowerBound a => lowerbound (Scal a)
  | CUpperBound b => upperbound (Scal b)
  | COrdered => ordered
  | CSumTo1 => sum_to_1
  | CStickBreaking => stick_breaking
  | CCircular => circular
  | CCholeskyCovPacked n => cholesky_cov_packed n
  end.

(** A point of the simplex with no entry on its boundary. *)
Definition simplex_point (r : list R) : Prop :=
  Forall (fun v => 0 < v) r /\ Rsum r = 1.

(** A packed lower triangle of an n by n matrix whose diagonal entries are
    positive. *)
Definition packed_cholesky (n : nat) (x : tensor) : Prop :=
  exists l, x = vec l /\
            (2 * length l = n * (n + 1))%nat /\
            forall i, In i (CholeskyCovPacked.diag_idxs n) ->
                      0 < nth i l 0.

(** The interior of the constrained domain that the specification
    declares for each transform. *)
Definition domain (T : concrete) (x : tensor) : Prop :=
  match T with
  | CLog => entries (fun v => 0 < v) x
  | CLogExpM1 => entries (fun v => 0 < v) x
  | CLogOdds => entries (fun v => 0 < v < 1) x
  | CInterval a b => entries (fun v => a < v < b) x
  | CLowerBound a => entries (fun v => a < v) x
  | CUpperBound b => entries (fun v => v < b) x
  | COrdered => all_rows (fun r => r <> [] /\ adjacent Rlt r) x
  | CSumTo1 => all_rows simplex_point x
  | CStickBreaking => all_rows simplex_point x
  | CCircular => entries (fun _ => True) x
  | CCholeskyCovPacked n => packed_cholesky n x
  end.

(** What a round trip is expected to return: the point itself, or for
    Circular its angle wrapped by arctan2. *)
Definition round_trip_value (T : concrete) (x : tensor) : tensor :=
  match T with
  | CCircular => tmap (fun v => arctan2 (sin v) (cos v)) x
  | _ => x
  end.

(** The differences of neighbours in [a :: l]. *)
Fixpoint diffs (a : R) (l : list R) : list R :=
  match l with
  | [] => []
  | b :: l' => (b - a) :: diffs b l'
  end.

(** The normalised exponentials of a vector. *)
Definition softmax (z : list R) : list R :=
  map (fun v => exp v / Rsum (map exp z)) z.

(** The simplex property as the specification states it for a vector [y]
    of length k-1: StickBreaking.backward(y) is a vector of length k with
    all entries in (0,1) that sums to 1, and StickBreaking.forward maps
    it back to [y]. *)
Definition StickBreaking_simplex_claim (y : list R) : Prop :=
  exists x,
    StickBreaking.backward (vec y) = Ok (vec x) /\
    length x = S (length y) /\
    Forall (fun v => 0 < v < 1) x /\
    Rsum x = 1 /\
    StickBreaking.forward (vec x) = Ok (vec y).

(** The real function that a method computes on rank-0 tensors. *)
Definition scalar_fun (f : tensor -> result tensor) (t : R) : R :=
  match f (Scal t) with
  | Ok (Scal r) => r
  | _ => 0
  end.

(** ** Chain.jacobian_det in the words of the specification

    The walk over the children, given in the order in which they are
    visited: each child's [jacobian_det] is taken on the current value,
    and the child's [backward] then makes the value for the next child. *)
Fixpoint walk (children : list Transform) (y : tensor)
  : result (list tensor) :=
  match children with
  | [] => Ok []
  | transf :: rest =>
      det_ <- jacobian_det transf y ;;
      y' <- backward transf y ;;
      dets <- walk rest y' ;;
      Ok (det_ :: dets)
  end.

(** A value with more than [m] dimensions is summed over its trailing
    axis. *)
Definition reduce_to (m : nat) (det_ : tensor) : result tensor :=
  if (m <? ndim det_)%nat then sum_last det_ else Ok det_.

(** The sum of the reduced values, added in order to [total]. *)
Fixpoint sum_reduced (m : nat) (dets : list tensor) (total : tensor)
  : result tensor :=
  match dets with
  | [] => Ok total
  | det_ :: rest =>
      v <- reduce_to m det_ ;;
      total' <- tadd total v ;;
      sum_reduced m rest total'
  end.

(** The least number of dimensions among the per-child values (0 when
    there is no child, and then nothing is reduced or added). *)
Definition min_ndim (dets : list tensor) : nat :=
  match dets with
  | [] => 0
  | det_ :: rest => fold_left Nat.min (map ndim rest) (ndim det_)
  end.

(** The result as the specification words it: the minimum is taken among
    the per-child values. *)
Definition claimed_jacobian_det (transform_list : list Transform)
    (y : tensor) : result tensor :=
  dets <- walk (rev transform_list) y ;;
  sum_reduced (min_ndim dets) dets (Scal 0).

(** The result when the minimum is seeded with the number of dimensions
    of [y] before the per-child values are met. *)
Definition seeded_jacobian_det (transform_list : list Transform)
    (y : tensor) : result tensor :=
  dets <- walk (rev transform_list) y ;;
  sum_reduced (fold_left Nat.min (map ndim dets) (ndim y)) dets (Scal 0).

(** ** TransformedDistribution

    The two log-probability methods.  The object holds the distribution
    [dist], of which the methods use the method [logp] only, and the
    transform [transform_used]; the class of [dist] is not in this
    file, so [dist.logp] is an argument. *)
Module TransformedDistribution.
Definition logp_nojac (dist_logp : tensor -> result tensor)
    (transform_used : Transform) (x : tensor) : result tensor :=
  z <- backward transform_used x ;;
  dist_logp z.

Definition logp (dist_logp : tensor -> result tensor)
    (transform_used : Transform) (x : tensor) : result tensor :=
  logp_nojac <- logp_nojac dist_logp transform_used x ;;
  jacobian_det <- jacobian_det transform_used x ;;
  logp_nojac <- (if (ndim jacobian_det <? ndim logp_nojac)%nat
                 then sum_last logp_nojac
                 else Ok logp_nojac) ;;
  tadd logp_nojac jacobian_det.
End TransformedDistribution.

(** The vector [l] with [f] applied to its entries at the packed
    diagonal positions of an n by n lower triangle. *)
Definition update_diag (f : R -> R) (n : nat) (l : list R) : list R :=
  map (fun j => if existsb (Nat.eqb j) (CholeskyCovPacked.diag_idxs n)
                then f (nth j l 0) else nth j l 0)
      (seq 0 (length l)).

(** The children round trip one after the other from [x]: each child's
    backward returns the value that its forward received. *)
Fixpoint round_trips (children : list Transform) (x : tensor) : Prop :=
  match children with
  | [] => True
  | transf :: rest =>
      exists u, forward transf x = Ok u /\
                backward transf u = Ok x /\
                round_trips rest u
  end.

(** The zero property as the specification states it for an input [x]:
    SumTo1.jacobian_det(x) returns a value, and every entry of it is
    zero. *)
Definition SumTo1_jacobian_det_zero_claim (x : tensor) : Prop :=
  exists z, SumTo1.jacobian_det x = Ok z /\ entries (fun v => v = 0) z.

(** * Properties *)

(** ** The result monad and tensors *)

Lemma tensor_ind (P : tensor -> Prop) :
  (forall r, P (Scal r)) ->
  (forall ts, Forall P ts -> P (Arr ts)) ->
  forall t, P t.
Proof.
  intros HS HA.
  fix IH 1.
  intros [r | ts].
  - apply HS.
  - apply HA. induction ts as [| c ts IHts]; constructor.
    + apply IH.
    + exact IHts.
Qed.

Lemma Ok_inj {A : Type} (a b : A) : Ok a = Ok b -> a = b.
Proof. intros H. injection H. auto. Qed.

Lemma mapM_ok {A B : Type} (f : A -> result B) (g : A -> B) (l : list A) :
  Forall (fun a => f a = Ok (g a)) l -> mapM f l = Ok (map g l).
Proof.
  induction 1 as [| a l Ha _ IH]; simpl.
  - reflexivity.
  - rewrite Ha. simpl. rewrite IH. reflexivity.
Qed.

Lemma ndim_tmap (f : R -> R) (t : tensor) : ndim (tmap f t) = ndim t.
Proof.
  induction t as [r | ts IH] using tensor_ind.
  - reflexivity.
  - destruct ts as [| c ts]; simpl.
    + reflexivity.
    + inversion IH; subst. congruence.
Qed.

Lemma tmap_tmap (f g : R -> R) (t : tensor) :
  tmap f (tmap g t) = tmap (fun v => f (g v)) t.
Proof.
  induction t as [r | ts IH] using tensor_ind; simpl.
  - reflexivity.
  - f_equal. rewrite map_map. apply map_ext_Forall. exact IH.
Qed.

Lemma tmap_ext_in (P : R -> Prop) (f g : R -> R) (t : tensor) :
  (forall v, P v -> f v = g v) ->
  Forall P (flatten t) -> tmap f t = tmap g t.
Proof.
  intros Hfg.
  induction t as [r | ts IH] using tensor_ind; simpl; intros HP.
  - f_equal. apply Hfg. inversion HP; assumption.
  - f_equal. apply map_ext_Forall.
    rewrite Forall_flat_map in HP.
    rewrite Forall_forall in *. intros c Hc. apply IH; auto.
Qed.

Lemma tmap_ext (f g : R -> R) (t : tensor) :
  (forall v, f v = g v) -> tmap f t = tmap g t.
Proof.
  intros Hfg. apply (tmap_ext_in (fun _ => True)); [auto |].
  apply Forall_forall. auto.
Qed.

Lemma tmap_id (t : tensor) : tmap (fun v => v) t = t.
Proof.
  induction t as [r | ts IH] using tensor_ind; simpl.
  - reflexivity.
  - f_equal. rewrite <- (map_id ts) at 2. apply map_ext_Forall. exact IH.
Qed.

(** A Python number, or a rank-0 tensor, broadcasts over any tensor. *)
Lemma tbin_scal_l (f : R -> R -> R) (a : R) (t : tensor) :
  tbin f (Scal a) t = Ok (tmap (f a) t).
Proof.
  induction t as [r | ts IH] using tensor_ind.
  - reflexivity.
  - simpl. rewrite (mapM_ok _ (tmap (f a))); [reflexivity | exact IH].
Qed.

Lemma tbin_scal_r (f : R -> R -> R) (b : R) (t : tensor) :
  tbin f t (Scal b) = Ok (tmap (fun v => f v b) t).
Proof.
  induction t as [r | ts IH] using tensor_ind.
  - reflexivity.
  - simpl.
    rewrite (mapM_ok _ (tmap (fun v => f v b))); [reflexivity | exact IH].
Qed.

Lemma tbin_arr (f : R -> R -> R) (l1 l2 : list tensor) :
  tbin f (Arr l1) (Arr l2) =
  match Nat.compare (ndim (Arr l1)) (ndim (Arr l2)) with
  | Lt => fmap Arr (mapM (tbin f (Arr l1)) l2)
  | Gt => fmap Arr (mapM (fun c => tbin f c (Arr l2)) l1)
  | Eq =>
      if Nat.eqb (length l1) (length l2)
      then fmap Arr (zipM (tbin f) l1 l2)
      else
        match l1, l2 with
        | [c], _ => fmap Arr (mapM (tbin f c) l2)
        | _, [c] => fmap Arr (mapM (fun d => tbin f d c) l1)
        | _, _ => Raise ValueError
        end
  end.
Proof. reflexivity. Qed.

(** Two tensors of one layout combine entry by entry. *)
Lemma tbin_same (f : R -> R -> R) (g h : R -> R) (t : tensor) :
  tbin f (tmap g t) (tmap h t) = Ok (tmap (fun v => f (g v) (h v)) t).
Proof.
  induction t as [r | ts IH] using tensor_ind.
  - reflexivity.
  - change (tmap g (Arr ts)) with (Arr (map (tmap g) ts)).
    change (tmap h (Arr ts)) with (Arr (map (tmap h) ts)).
    rewrite tbin_arr.
    change (Arr (map (tmap g) ts)) with (tmap g (Arr ts)).
    change (Arr (map (tmap h) ts)) with (tmap h (Arr ts)).
    rewrite !ndim_tmap, Nat.compare_refl, !length_map, Nat.eqb_refl.
    assert (E : zipM (tbin f) (map (tmap g) ts) (map (tmap h) ts)
                = Ok (map (tmap (fun v => f (g v) (h v))) ts)).
    { induction IH as [| c ts Hc _ IHts]; simpl.
      - reflexivity.
      - rewrite Hc. simpl. rewrite IHts. reflexivity. }
    rewrite E. reflexivity.
Qed.

Lemma tbin_same_l (f : R -> R -> R) (h : R -> R) (t : tensor) :
  tbin f t (tmap h t) = Ok (tmap (fun v => f v (h v)) t).
Proof.
  rewrite <- (tmap_id t) at 1. apply (tbin_same f (fun v => v) h).
Qed.

Lemma tbin_same_r (f : R -> R -> R) (g : R -> R) (t : tensor) :
  tbin f (tmap g t) t = Ok (tmap (fun v => f (g v) v) t).
Proof.
  rewrite <- (tmap_id t) at 2. apply (tbin_same f g (fun v => v)).
Qed.

(** ** Elementwise transforms: what each method computes on an entry *)

Ltac elemwise :=
  cbv [aet.exp aet.log aet.neg aet.sin aet.cos aet.abs_ aet.zeros
       aet.nnet.softplus aet.nnet.sigmoid aet.as_tensor_variable aet.arctan2
       rsub rmul logit invlogit zeros_like tadd tsub tmul];
  repeat first
    [ rewrite tmap_tmap
    | rewrite tbin_scal_l
    | rewrite tbin_scal_r
    | rewrite tbin_same
    | rewrite tbin_same_l
    | rewrite tbin_same_r
    | progress cbn [bind fmap tmap] ].

Lemma LogExpM1_forward_eq (x : tensor) :
  LogExpM1.forward x = Ok (tmap (fun v => ln (1 - exp (- v)) + v) x).
Proof. unfold LogExpM1.forward. elemwise. reflexivity. Qed.

Lemma Interval_forward_eq (a b : R) (x : tensor) :
  Interval.forward (Scal a) (Scal b) x
  = Ok (tmap (fun v => ln (v - a) - ln (b - v)) x).
Proof. unfold Interval.forward. elemwise. reflexivity. Qed.

Lemma Interval_backward_eq (a b : R) (x : tensor) :
  Interval.backward (Scal a) (Scal b) x
  = Ok (tmap (fun v => sigmoid v * b + (1 - sigmoid v) * a) x).
Proof. unfold Interval.backward. elemwise. reflexivity. Qed.

Lemma Interval_jacobian_det_eq (a b : R) (x : tensor) :
  Interval.jacobian_det (Scal a) (Scal b) x
  = Ok (tmap (fun v => ln (b - a) - 2 * softplus (- v) - v) x).
Proof. unfold Interval.jacobian_det. elemwise. reflexivity. Qed.

(** At the margin 0.0 of its call, [invlogit] is the sigmoid. *)
Lemma invlogit_sigmoid (x : tensor) : invlogit x 0 = aet.nnet.sigmoid x.
Proof.
  unfold invlogit, aet.nnet.sigmoid, sigmoid. apply tmap_ext. intros v.
  pose proof (exp_pos (- v)). field. lra.
Qed.

Lemma Circular_backward_eq (y : tensor) :
  Circular.backward y = Ok (tmap (fun v => arctan2 (sin v) (cos v)) y).
Proof. unfold Circular.backward. elemwise. reflexivity. Qed.

(** ** Round trips on one entry *)

Lemma exp_neg_lt_1 (v : R) : 0 < v -> exp (- v) < 1.
Proof.
  intros Hv. rewrite <- exp_0. apply exp_increasing. lra.
Qed.

Lemma softplus_round_trip (v : R) :
  0 < v -> softplus (ln (1 - exp (- v)) + v) = v.
Proof.
  intros Hv. unfold softplus.
  pose proof (exp_neg_lt_1 v Hv) as H1.
  rewrite exp_plus, exp_ln by lra.
  replace (1 + (1 - exp (- v)) * exp v) with (exp v).
  - apply ln_exp.
  - rewrite Rmult_minus_distr_r, <- exp_plus.
    replace (- v + v) with 0 by ring. rewrite exp_0. ring.
Qed.

Lemma exp_opp_ln (q : R) : 0 < q -> exp (- ln q) = / q.
Proof.
  intros Hq. rewrite exp_Ropp, exp_ln by assumption. reflexivity.
Qed.

Lemma invlogit_round_trip (p : R) :
  0 < p < 1 -> (1 - 2 * 0) / (1 + exp (- ln (p / (1 - p)))) + 0 = p.
Proof.
  intros [H0 H1].
  assert (Hq : 0 < p / (1 - p)) by (apply Rdiv_lt_0_compat; lra).
  rewrite exp_opp_ln by assumption.
  field. lra.
Qed.

Lemma sigmoid_logratio (u w : R) :
  0 < u -> 0 < w -> sigmoid (ln u - ln w) = u / (u + w).
Proof.
  intros Hu Hw. unfold sigmoid.
  replace (- (ln u - ln w)) with (ln w + - ln u) by ring.
  rewrite exp_plus, exp_opp_ln, exp_ln by assumption.
  field. lra.
Qed.

Lemma interval_round_trip (a b v : R) :
  a < v < b ->
  sigmoid (ln (v - a) - ln (b - v)) * b
  + (1 - sigmoid (ln (v - a) - ln (b - v))) * a = v.
Proof.
  intros [Ha Hb].
  rewrite sigmoid_logratio by lra.
  field. lra.
Qed.

(** ** Round trips of the elementwise transforms *)

Lemma Log_round_trip (x : tensor) :
  entries (fun v => 0 < v) x ->
  (y <- Log.forward x ;; Log.backward y) = Ok x.
Proof.
  intros Hx. unfold Log.forward, Log.backward. elemwise.
  f_equal. rewrite <- (tmap_id x) at 2.
  apply (tmap_ext_in (fun v => 0 < v)); [| exact Hx].
  intros v Hv. apply exp_ln. exact Hv.
Qed.

Lemma LogExpM1_round_trip (x : tensor) :
  entries (fun v => 0 < v) x ->
  (y <- LogExpM1.forward x ;; LogExpM1.backward y) = Ok x.
Proof.
  intros Hx. rewrite LogExpM1_forward_eq. unfold LogExpM1.backward.
  elemwise. f_equal. rewrite <- (tmap_id x) at 2.
  apply (tmap_ext_in (fun v => 0 < v)); [| exact Hx].
  intros v Hv. apply softplus_round_trip. exact Hv.
Qed.

Lemma LogOdds_round_trip (x : tensor) :
  entries (fun v => 0 < v < 1) x ->
  (y <- LogOdds.forward x ;; LogOdds.backward y) = Ok x.
Proof.
  intros Hx. unfold LogOdds.forward, LogOdds.backward. elemwise.
  f_equal. rewrite <- (tmap_id x) at 2.
  apply (tmap_ext_in (fun v => 0 < v < 1)); [| exact Hx].
  intros v Hv. apply invlogit_round_trip. exact Hv.
Qed.

Lemma Interval_round_trip (a b : R) (x : tensor) :
  entries (fun v => a < v < b) x ->
  (y <- Interval.forward (Scal a) (Scal b) x ;;
   Interval.backward (Scal a) (Scal b) y) = Ok x.
Proof.
  intros Hx. rewrite Interval_forward_eq. cbn [bind].
  rewrite Interval_backward_eq, tmap_tmap.
  f_equal. rewrite <- (tmap_id x) at 2.
  apply (tmap_ext_in (fun v => a < v < b)); [| exact Hx].
  intros v Hv. apply interval_round_trip. exact Hv.
Qed.

Lemma LowerBound_round_trip (a : R) (x : tensor) :
  entries (fun v => a < v) x ->
  (y <- LowerBound.forward (Scal a) x ;; LowerBound.backward (Scal a) y)
  = Ok x.
Proof.
  intros Hx. unfold LowerBound.forward, LowerBound.backward. elemwise.
  f_equal. rewrite <- (tmap_id x) at 2.
  apply (tmap_ext_in (fun v => a < v)); [| exact Hx].
  intros v Hv. rewrite exp_ln by lra. ring.
Qed.

Lemma UpperBound_round_trip (b : R) (x : tensor) :
  entries (fun v => v < b) x ->
  (y <- UpperBound.forward (Scal b) x ;; UpperBound.backward (Scal b) y)
  = Ok x.
Proof.
  intros Hx. unfold UpperBound.forward, UpperBound.backward. elemwise.
  f_equal. rewrite <- (tmap_id x) at 2.
  apply (tmap_ext_in (fun v => v < b)); [| exact Hx].
  intros v Hv. rewrite exp_ln by lra. ring.
Qed.

Lemma Circular_round_trip (x : tensor) :
  (y <- Circular.forward x ;; Circular.backward y)
  = Ok (tmap (fun v => arctan2 (sin v) (cos v)) x).
Proof.
  unfold Circular.forward. cbn [bind]. apply Circular_backward_eq.
Qed.

(** ** The wrapping of Circular *)

Lemma tan_shift_minus (x : R) : cos x <> 0 -> tan (x - PI) = sin x / cos x.
Proof.
  intros Hc. unfold tan.
  rewrite sin_minus, cos_minus, sin_PI, cos_PI. field. exact Hc.
Qed.

Lemma tan_shift_plus (x : R) : cos x <> 0 -> tan (x + PI) = sin x / cos x.
Proof.
  intros Hc. unfold tan.
  rewrite sin_plus, cos_plus, sin_PI, cos_PI. field. exact Hc.
Qed.

Ltac decide_signs :=
  repeat match goal with
         | |- context [Rlt_dec ?a ?b] => destruct (Rlt_dec a b); try lra
         | |- context [Rle_dec ?a ?b] => destruct (Rle_dec a b); try lra
         end.

(** An angle of the principal range (-PI, PI] is returned unchanged. *)
Lemma arctan2_sin_cos (x : R) :
  - PI < x <= PI -> arctan2 (sin x) (cos x) = x.
Proof.
  intros [Hlo Hhi]. pose proof PI_RGT_0 as Hpi. unfold arctan2.
  destruct (Rtotal_order x (- (PI / 2))) as [E | [E | E]].
  - assert (Hc : cos x < 0).
    { rewrite <- cos_neg. apply cos_lt_0; lra. }
    assert (Hs : sin x < 0).
    { assert (H : 0 < sin (- x)) by (apply sin_gt_0; lra).
      rewrite sin_neg in H. lra. }
    decide_signs.
    rewrite <- tan_shift_plus by lra.
    rewrite atan_tan by lra. ring.
  - subst x. rewrite cos_neg, sin_neg, cos_PI2, sin_PI2.
    decide_signs.
  - destruct (Rtotal_order x (PI / 2)) as [F | [F | F]].
    + assert (Hc : 0 < cos x) by (apply cos_gt_0; lra).
      decide_signs.
      fold (tan x). apply atan_tan. lra.
    + subst x. rewrite cos_PI2, sin_PI2.
      decide_signs.
    + assert (Hc : cos x < 0) by (apply cos_lt_0; lra).
      assert (Hs : 0 <= sin x) by (apply sin_ge_0; lra).
      decide_signs.
      rewrite <- tan_shift_minus by lra.
      rewrite atan_tan by lra. ring.
Qed.

Lemma Circular_round_trip_principal (x : tensor) :
  entries (fun v => - PI < v <= PI) x ->
  (y <- Circular.forward x ;; Circular.backward y) = Ok x.
Proof.
  intros Hx. rewrite Circular_round_trip. f_equal.
  rewrite <- (tmap_id x) at 2.
  apply (tmap_ext_in (fun v => - PI < v <= PI)); [| exact Hx].
  apply arctan2_sin_cos.
Qed.

(** A full turn is wrapped to 0. *)
Lemma Circular_round_trip_full_turn :
  (y <- Circular.forward (Scal (2 * PI)) ;; Circular.backward y)
  = Ok (Scal 0).
Proof.
  rewrite Circular_round_trip. cbn [tmap]. do 2 f_equal.
  rewrite sin_2PI, cos_2PI. unfold arctan2. decide_signs.
  unfold Rdiv. rewrite Rmult_0_l. apply atan_0.
Qed.

(** ** Rows along the trailing axis *)

Lemma forallb_is_scal_vec (l : list R) : forallb is_scal (map Scal l) = true.
Proof. induction l; simpl; auto. Qed.

Lemma map_item_vec (l : list R) : map item (map Scal l) = l.
Proof. induction l; simpl; congruence. Qed.

Lemma rows_vec (g : list R -> result tensor) (l : list R) :
  rows g (vec l) = g l.
Proof.
  unfold vec. simpl. rewrite forallb_is_scal_vec, map_item_vec. reflexivity.
Qed.

Lemma reduce_rows_vec (g : list R -> result tensor) (l : list R) :
  reduce_rows g (vec l) = g l.
Proof. apply rows_vec. Qed.

Lemma reduce_rows_not_scal (g : list R -> result tensor) (t : tensor) :
  is_scal t = false -> reduce_rows g t = rows g t.
Proof. destruct t; [discriminate | reflexivity]. Qed.

Lemma all_rows_vec (P : list R -> Prop) (l : list R) :
  all_rows P (vec l) = P l.
Proof.
  unfold vec. simpl. rewrite forallb_is_scal_vec, map_item_vec. reflexivity.
Qed.

Lemma vec_items (ts : list tensor) :
  forallb is_scal ts = true -> vec (map item ts) = Arr ts.
Proof.
  intros H. unfold vec. f_equal.
  induction ts as [| c ts IH]; simpl in *.
  - reflexivity.
  - apply andb_prop in H. destruct H as [Hc Hts].
    destruct c; [| discriminate]. simpl. f_equal. auto.
Qed.

Lemma all_rows_arr (P : list R -> Prop) (ts : list tensor) :
  forallb is_scal ts = false ->
  all_rows P (Arr ts) <-> Forall (all_rows P) ts.
Proof.
  intros H. simpl. rewrite H. clear H.
  induction ts as [| c ts IH].
  - split; auto.
  - split.
    + intros [Hc Hts]. constructor; [exact Hc | apply IH; exact Hts].
    + intros Hf. inversion Hf; subst. split; [assumption | apply IH; assumption].
Qed.

Lemma all_rows_not_scal (P : list R -> Prop) (t : tensor) :
  all_rows P t -> is_scal t = false.
Proof. destruct t; simpl; [contradiction | reflexivity]. Qed.

Lemma forallb_is_scal_false (ts : list tensor) :
  ts <> [] -> Forall (fun c => is_scal c = false) ts ->
  forallb is_scal ts = false.
Proof.
  intros Hne Hts. destruct Hts as [| c ts Hc _]; [congruence |].
  simpl. rewrite Hc. reflexivity.
Qed.

Lemma mapM_inv {A B : Type} (f : A -> result B) (l : list A) (l' : list B) :
  mapM f l = Ok l' -> Forall2 (fun a b => f a = Ok b) l l'.
Proof.
  revert l'. induction l as [| a l IH]; simpl; intros l' H.
  - inversion H. constructor.
  - destruct (f a) as [b |] eqn:Ha; simpl in H; [| discriminate].
    destruct (mapM f l) as [bs |] eqn:Hl; simpl in H; [| discriminate].
    inversion H; subst. constructor; auto.
Qed.

Lemma mapM_Forall2 {A B : Type} (f : A -> result B) (l : list A) (l' : list B) :
  Forall2 (fun a b => f a = Ok b) l l' -> mapM f l = Ok l'.
Proof.
  induction 1 as [| a b l l' Hab _ IH]; simpl.
  - reflexivity.
  - rewrite Hab. simpl. rewrite IH. reflexivity.
Qed.

Lemma rows_arr_row (g : list R -> result tensor) (ts : list tensor) :
  forallb is_scal ts = true -> rows g (Arr ts) = g (map item ts).
Proof. intros H. simpl. rewrite H. reflexivity. Qed.

Lemma rows_arr_batch (g : list R -> result tensor) (ts : list tensor) :
  forallb is_scal ts = false ->
  rows g (Arr ts) = fmap Arr (mapM (rows g) ts).
Proof. intros H. simpl. rewrite H. reflexivity. Qed.

Lemma all_rows_arr_row (P : list R -> Prop) (ts : list tensor) :
  forallb is_scal ts = true -> all_rows P (Arr ts) = P (map item ts).
Proof. intros H. simpl. rewrite H. reflexivity. Qed.

(** A row function that inverts another one on the rows satisfying [P]
    inverts it on every tensor whose rows satisfy [P]. *)
Lemma rows_round_trip (g1 g2 : list R -> result tensor) (P : list R -> Prop) :
  (forall r, P r -> exists r', g1 r = Ok (vec r') /\ g2 r' = Ok (vec r)) ->
  forall t, all_rows P t ->
  exists t', rows g1 t = Ok t' /\ rows g2 t' = Ok t /\ is_scal t' = false.
Proof.
  intros Hg.
  induction t as [r | ts IH] using tensor_ind; intros Ht.
  - contradiction.
  - destruct (forallb is_scal ts) eqn:Hs.
    + rewrite (all_rows_arr_row P ts Hs) in Ht.
      destruct (Hg _ Ht) as (r' & H1 & H2).
      exists (vec r'). rewrite (rows_arr_row g1 ts Hs), H1.
      split; [reflexivity |]. split; [| reflexivity].
      rewrite rows_vec, H2. f_equal. apply vec_items. exact Hs.
    + rewrite (all_rows_arr P ts Hs) in Ht.
      assert (E : exists ts',
                 Forall2 (fun c c' => rows g1 c = Ok c') ts ts' /\
                 Forall2 (fun c' c => rows g2 c' = Ok c) ts' ts /\
                 Forall (fun c' => is_scal c' = false) ts').
      { clear Hs. induction IH as [| c ts Hc _ IHts].
        - exists []. repeat split; constructor.
        - inversion Ht; subst.
          destruct (Hc H1) as (c' & Hc1 & Hc2 & Hc3).
          destruct (IHts H2) as (ts' & Ht1 & Ht2 & Ht3).
          exists (c' :: ts'). repeat split; constructor; assumption. }
      destruct E as (ts' & E1 & E2 & E3).
      exists (Arr ts'). rewrite (rows_arr_batch g1 ts Hs).
      rewrite (mapM_Forall2 _ _ _ E1).
      split; [reflexivity |]. split; [| reflexivity].
      rewrite rows_arr_batch.
      * rewrite (mapM_Forall2 _ _ _ E2). reflexivity.
      * apply forallb_is_scal_false; [| exact E3].
        intros ->. inversion E1; subst. discriminate.
Qed.

(** Whenever the row function returns vectors satisfying [Q], so does
    every row of what [rows] returns. *)
Lemma rows_post (g : list R -> result tensor) (Q : list R -> Prop) :
  (forall r t', g r = Ok t' -> exists r', t' = vec r' /\ Q r') ->
  forall t t', rows g t = Ok t' -> all_rows Q t'.
Proof.
  intros Hg.
  induction t as [r | ts IH] using tensor_ind; intros t' Ht.
  - discriminate.
  - destruct (forallb is_scal ts) eqn:Hs.
    + rewrite (rows_arr_row g ts Hs) in Ht.
      destruct (Hg _ _ Ht) as (r' & -> & HQ).
      rewrite all_rows_vec. exact HQ.
    + rewrite (rows_arr_batch g ts Hs) in Ht.
      destruct (mapM (rows g) ts) as [ts' |] eqn:Hm; simpl in Ht;
        [| discriminate].
      inversion Ht; subst. apply mapM_inv in Hm.
      assert (F : Forall (all_rows Q) ts').
      { clear Hs Ht. induction Hm as [| c c' ts ts' Hc _ IHm].
        - constructor.
        - inversion IH; subst. constructor; eauto. }
      apply all_rows_arr; [| exact F].
      apply forallb_is_scal_false.
      * intros ->. inversion Hm; subst. discriminate.
      * eapply Forall_impl; [| exact F].
        intros c. apply all_rows_not_scal.
Qed.

(** [rows] returns on every tensor whose rows the row function accepts. *)
Lemma rows_total (g : list R -> result tensor) (P : list R -> Prop) :
  (forall r, P r -> exists t', g r = Ok t') ->
  forall t, all_rows P t -> exists t', rows g t = Ok t'.
Proof.
  intros Hg.
  induction t as [r | ts IH] using tensor_ind; intros Ht.
  - contradiction.
  - destruct (forallb is_scal ts) eqn:Hs.
    + rewrite (all_rows_arr_row P ts Hs) in Ht.
      rewrite (rows_arr_row g ts Hs). apply Hg. exact Ht.
    + rewrite (all_rows_arr P ts Hs) in Ht.
      rewrite (rows_arr_batch g ts Hs).
      assert (E : exists ts', mapM (rows g) ts = Ok ts').
      { clear Hs. induction IH as [| c ts Hc _ IHts].
        - exists []. reflexivity.
        - inversion Ht; subst.
          destruct (Hc H1) as (c' & Hc1).
          destruct (IHts H2) as (ts' & Ht1).
          exists (c' :: ts'). simpl. rewrite Hc1. simpl. rewrite Ht1.
          reflexivity. }
      destruct E as (ts' & E). rewrite E. simpl. eauto.
Qed.

(** ** Ordered on one row *)

Lemma inc_zeros (l vs : list R) :
  length l = length vs ->
  map (fun p => fst p + snd p) (combine (map (fun _ => 0) l) vs) = vs.
Proof.
  revert vs. induction l as [| a l IH]; intros [| v vs] H; simpl in *;
    try discriminate; try reflexivity.
  rewrite Rplus_0_l. f_equal. apply IH. lia.
Qed.

Lemma combine_diffs (a : R) (l : list R) :
  map (fun p => fst p - snd p) (combine l (removelast (a :: l))) = diffs a l.
Proof.
  revert a. induction l as [| b l IH]; intros a.
  - reflexivity.
  - change (removelast (a :: b :: l)) with (a :: removelast (b :: l)).
    simpl combine. simpl map. simpl diffs. f_equal. apply IH.
Qed.

Lemma length_diffs (a : R) (l : list R) : length (diffs a l) = length l.
Proof. revert a. induction l; intros; simpl; auto. Qed.

Lemma Ordered_backward_row_eq (y0 : R) (ys : list R) :
  Ordered.backward_row (y0 :: ys) = Ok (vec (cumsum (y0 :: map exp ys))).
Proof.
  unfold Ordered.backward_row. cbn [map getitem0 bind inc_subtensor0 tl].
  unfold inc_subtensor_from1.
  rewrite inc_zeros by (rewrite length_map; reflexivity).
  rewrite Rplus_0_l. reflexivity.
Qed.

Lemma Ordered_forward_row_eq (x0 : R) (xs : list R) :
  Ordered.forward_row (x0 :: xs) = Ok (vec (x0 :: map ln (diffs x0 xs))).
Proof.
  unfold Ordered.forward_row. cbn [map getitem0 bind inc_subtensor0 tl].
  unfold inc_subtensor_from1.
  rewrite combine_diffs.
  rewrite inc_zeros by (rewrite length_map, length_diffs; reflexivity).
  rewrite Rplus_0_l. reflexivity.
Qed.

Lemma cumsum_diffs (a : R) (xs : list R) :
  adjacent Rlt (a :: xs) ->
  cumsum_from a (map exp (map ln (diffs a xs))) = xs.
Proof.
  revert a. induction xs as [| b xs IH]; intros a H.
  - reflexivity.
  - destruct H as [Hab H]. simpl.
    rewrite exp_ln by lra.
    replace (a + (b - a)) with b by ring.
    f_equal. apply IH. exact H.
Qed.

Lemma Ordered_row_round_trip (x : list R) :
  x <> [] /\ adjacent Rlt x ->
  exists y, Ordered.forward_row x = Ok (vec y) /\
            Ordered.backward_row y = Ok (vec x).
Proof.
  intros [Hne Hx]. destruct x as [| x0 xs]; [congruence |].
  exists (x0 :: map ln (diffs x0 xs)). split.
  - apply Ordered_forward_row_eq.
  - rewrite Ordered_backward_row_eq. unfold cumsum. simpl.
    rewrite Rplus_0_l, cumsum_diffs by exact Hx. reflexivity.
Qed.

(** ** SumTo1 on one row *)

Lemma Rsum_app (l1 l2 : list R) : Rsum (l1 ++ l2) = Rsum l1 + Rsum l2.
Proof.
  induction l1 as [| a l1 IH]; simpl.
  - ring.
  - unfold Rsum in *. simpl. rewrite IH. ring.
Qed.

Lemma SumTo1_row_round_trip (x : list R) :
  simplex_point x ->
  exists y, Ok (vec (removelast x)) = Ok (vec y) /\
            SumTo1.backward_row y = Ok (vec x).
Proof.
  intros [_ Hsum]. exists (removelast x). split; [reflexivity |].
  unfold SumTo1.backward_row. do 2 f_equal.
  assert (Hne : x <> []).
  { intros ->. unfold Rsum in Hsum. simpl in Hsum. lra. }
  rewrite (app_removelast_last 0 Hne) in Hsum at 1.
  rewrite Rsum_app in Hsum. unfold Rsum at 2 in Hsum. simpl in Hsum.
  rewrite (app_removelast_last 0 Hne) at 3.
  do 2 f_equal. lra.
Qed.

(** ** Sums of lists of reals *)

Lemma Rsum_cons (a : R) (l : list R) : Rsum (a :: l) = a + Rsum l.
Proof. reflexivity. Qed.

Lemma Rsum_nil : Rsum [] = 0.
Proof. reflexivity. Qed.

Lemma Rsum_map_minus (c : R) (l : list R) :
  Rsum (map (fun v => v - c) l) = Rsum l - INR (length l) * c.
Proof.
  induction l as [| a l IH].
  - simpl. unfold Rsum. simpl. ring.
  - cbn [map length]. rewrite !Rsum_cons, IH, S_INR. ring.
Qed.

Lemma Rsum_map_mult (c : R) (l : list R) :
  Rsum (map (fun v => v * c) l) = Rsum l * c.
Proof.
  induction l as [| a l IH].
  - unfold Rsum. simpl. ring.
  - cbn [map]. rewrite !Rsum_cons, IH. ring.
Qed.

Lemma Rsum_nonneg (l : list R) : Forall (fun v => 0 < v) l -> 0 <= Rsum l.
Proof.
  induction 1 as [| a l Ha _ IH].
  - unfold Rsum. simpl. lra.
  - rewrite Rsum_cons. lra.
Qed.

Lemma Rsum_pos (l : list R) :
  l <> [] -> Forall (fun v => 0 < v) l -> 0 < Rsum l.
Proof.
  intros Hne H. destruct H as [| a l Ha Hl]; [congruence |].
  rewrite Rsum_cons. pose proof (Rsum_nonneg l Hl). lra.
Qed.

(** In a list of two or more positive numbers, every entry is smaller
    than the sum. *)
Lemma Rsum_gt_entry (l : list R) (v : R) :
  (2 <= length l)%nat -> Forall (fun v => 0 < v) l -> In v l -> v < Rsum l.
Proof.
  intros Hlen Hpos Hin.
  destruct (in_split _ _ Hin) as (l1 & l2 & ->).
  rewrite Rsum_app, Rsum_cons.
  apply Forall_app in Hpos. destruct Hpos as [H1 H2].
  apply Forall_cons_iff in H2. destruct H2 as [Hv H2].
  rewrite length_app in Hlen. cbn [length] in Hlen.
  pose proof (Rsum_nonneg l1 H1) as N1.
  pose proof (Rsum_nonneg l2 H2) as N2.
  destruct l1 as [| a l1].
  - destruct l2 as [| b l2]; [simpl in Hlen; lia |].
    pose proof (Rsum_pos (b :: l2) ltac:(discriminate) H2). lra.
  - pose proof (Rsum_pos (a :: l1) ltac:(discriminate) H1). lra.
Qed.

Lemma exp_list_pos (z : list R) : Forall (fun v => 0 < v) (map exp z).
Proof.
  apply Forall_forall. intros v Hv. apply in_map_iff in Hv.
  destruct Hv as (u & <- & _). apply exp_pos.
Qed.

Lemma Rsum_exp_pos (z : list R) : z <> [] -> 0 < Rsum (map exp z).
Proof.
  intros Hne. apply Rsum_pos; [| apply exp_list_pos].
  destruct z; [congruence | discriminate].
Qed.

(** ** The softmax *)

Lemma length_softmax (z : list R) : length (softmax z) = length z.
Proof. unfold softmax. apply length_map. Qed.

Lemma softmax_pos (z : list R) : Forall (fun v => 0 < v) (softmax z).
Proof.
  apply Forall_forall. intros v Hv. unfold softmax in Hv.
  apply in_map_iff in Hv. destruct Hv as (u & <- & Hu).
  apply Rdiv_lt_0_compat; [apply exp_pos |].
  apply Rsum_exp_pos. intros ->. contradiction.
Qed.

Lemma Rsum_softmax (z : list R) : z <> [] -> Rsum (softmax z) = 1.
Proof.
  intros Hne. unfold softmax.
  rewrite <- (map_map exp (fun e => e / Rsum (map exp z))).
  unfold Rdiv. rewrite Rsum_map_mult.
  apply Rinv_r. pose proof (Rsum_exp_pos z Hne). lra.
Qed.

Lemma softmax_lt_1 (z : list R) :
  (2 <= length z)%nat -> Forall (fun v => v < 1) (softmax z).
Proof.
  intros Hlen. apply Forall_forall. intros v Hv.
  assert (Hne : z <> []) by (intros ->; simpl in Hlen; lia).
  rewrite <- (Rsum_softmax z Hne).
  apply Rsum_gt_entry; [rewrite length_softmax; exact Hlen | | exact Hv].
  apply softmax_pos.
Qed.

(** Subtracting any number from the entries before exponentiating leaves
    the normalised exponentials unchanged. *)
Lemma softmax_shift (m : R) (z : list R) :
  let e_y := map (fun v => exp (v - m)) z in
  map (fun v => v / Rsum e_y) e_y = softmax z.
Proof.
  intros e_y. unfold softmax. subst e_y.
  assert (E : map (fun v => exp (v - m)) z
              = map (fun e => e * exp (- m)) (map exp z)).
  { rewrite map_map. apply map_ext. intros v.
    unfold Rminus. apply exp_plus. }
  rewrite E, Rsum_map_mult, !map_map.
  apply map_ext_in. intros v Hv.
  assert (Hne : z <> []) by (intros ->; contradiction).
  pose proof (Rsum_exp_pos z Hne). pose proof (exp_pos (- m)).
  field. lra.
Qed.

Lemma Rmax_list_ok (l : list R) (a : R) :
  exists m, Rmax_list (l ++ [a]) = Ok m.
Proof. destruct l; simpl; eauto. Qed.

Lemma StickBreaking_backward_row_eq (y : list R) :
  StickBreaking.backward_row y = Ok (vec (softmax (y ++ [- Rsum y]))).
Proof.
  unfold StickBreaking.backward_row.
  destruct (Rmax_list_ok y (- Rsum y)) as (m & ->). cbn [bind].
  rewrite (softmax_shift m). reflexivity.
Qed.

(** ** StickBreaking on one row *)

Lemma removelast_map {A B : Type} (f : A -> B) (l : list A) :
  removelast (map f l) = map f (removelast l).
Proof.
  induction l as [| a l IH]; [reflexivity |].
  destruct l as [| b l]; [reflexivity |].
  change (removelast (map f (a :: b :: l)))
    with (f a :: removelast (map f (b :: l))).
  rewrite IH. reflexivity.
Qed.

Lemma INR_length_neq_0 {A : Type} (l : list A) : l <> [] -> INR (length l) <> 0.
Proof.
  intros Hne. apply not_0_INR. destruct l; [congruence | discriminate].
Qed.

Lemma ln_softmax (z : list R) :
  map ln (softmax z) = map (fun v => v - ln (Rsum (map exp z))) z.
Proof.
  unfold softmax. rewrite map_map. apply map_ext_in. intros v Hv.
  assert (Hne : z <> []) by (intros ->; contradiction).
  pose proof (Rsum_exp_pos z Hne) as HS.
  unfold Rdiv. rewrite ln_mult, ln_Rinv, ln_exp.
  - ring.
  - exact HS.
  - apply exp_pos.
  - apply Rinv_0_lt_compat. exact HS.
Qed.

Lemma StickBreaking_forward_softmax (z : list R) :
  z <> [] -> Rsum z = 0 ->
  StickBreaking.forward_row (softmax z) = Ok (vec (removelast z)).
Proof.
  intros Hne Hz. unfold StickBreaking.forward_row.
  rewrite length_softmax, ln_softmax.
  set (c := ln (Rsum (map exp z))).
  rewrite Rsum_map_minus, Hz, removelast_map, map_map.
  do 2 f_equal. rewrite <- (map_id (removelast z)) at 2.
  apply map_ext. intros v.
  pose proof (INR_length_neq_0 z Hne). field. assumption.
Qed.

(** [forward] undoes [backward] on every row. *)
Lemma StickBreaking_row_left_inverse (y : list R) :
  exists x, StickBreaking.backward_row y = Ok (vec x) /\
            StickBreaking.forward_row x = Ok (vec y).
Proof.
  exists (softmax (y ++ [- Rsum y])). split.
  - apply StickBreaking_backward_row_eq.
  - rewrite StickBreaking_forward_softmax.
    + rewrite removelast_last. reflexivity.
    + destruct y; discriminate.
    + rewrite Rsum_app, Rsum_cons, Rsum_nil. ring.
Qed.

Lemma softmax_ln (c : R) (x : list R) :
  Forall (fun v => 0 < v) x -> Rsum x = 1 ->
  softmax (map (fun v => ln v - c) x) = x.
Proof.
  intros Hpos Hsum. unfold softmax.
  assert (E : map exp (map (fun v => ln v - c) x)
              = map (fun v => v * exp (- c)) x).
  { rewrite map_map. apply map_ext_in. intros v Hv.
    rewrite Forall_forall in Hpos.
    unfold Rminus. rewrite exp_plus, exp_ln by auto. reflexivity. }
  rewrite E, Rsum_map_mult, Hsum, map_map.
  rewrite <- (map_id x) at 2. apply map_ext_in. intros v Hv.
  rewrite Forall_forall in Hpos.
  unfold Rminus. rewrite exp_plus, exp_ln by auto.
  pose proof (exp_pos (- c)). field. lra.
Qed.

Lemma StickBreaking_row_round_trip (x : list R) :
  simplex_point x ->
  exists y, StickBreaking.forward_row x = Ok (vec y) /\
            StickBreaking.backward_row y = Ok (vec x).
Proof.
  intros [Hpos Hsum].
  assert (Hne : x <> []).
  { intros ->. unfold Rsum in Hsum. simpl in Hsum. lra. }
  unfold StickBreaking.forward_row.
  set (lx := map ln x). set (c := Rsum lx / INR (length x)).
  exists (map (fun v => v - c) (removelast lx)).
  split; [reflexivity |].
  rewrite StickBreaking_backward_row_eq. do 2 f_equal.
  assert (Hlx : lx <> []).
  { subst lx. destruct x; [congruence | discriminate]. }
  assert (E : map (fun v => v - c) (removelast lx)
                ++ [- Rsum (map (fun v => v - c) (removelast lx))]
              = map (fun v => v - c) lx).
  { rewrite (app_removelast_last 0 Hlx) at 3.
    rewrite map_app. f_equal. cbn [map]. f_equal.
    rewrite Rsum_map_minus.
    assert (Hs : Rsum lx = Rsum (removelast lx) + last lx 0).
    { rewrite (app_removelast_last 0 Hlx) at 1.
      rewrite Rsum_app, Rsum_cons, Rsum_nil. ring. }
    assert (Hl : INR (length x) = INR (length (removelast lx)) + 1).
    { rewrite <- S_INR. f_equal.
      replace (length x) with (length lx)
        by (subst lx; apply length_map).
      rewrite (app_removelast_last 0 Hlx) at 1.
      rewrite length_app. simpl. lia. }
    assert (Hc : INR (length x) * c = Rsum lx).
    { subst c. field. apply INR_length_neq_0. exact Hne. }
    nra. }
  rewrite E. subst lx. rewrite map_map.
  apply softmax_ln; assumption.
Qed.

(** ** CholeskyCovPacked *)

Lemma set_nth_spec (ts : list tensor) (i : nat) (v : tensor) :
  (i < length ts)%nat ->
  exists ts', set_nth ts i v = Ok ts' /\
              length ts' = length ts /\
              forall j, nth_error ts' j
                        = if Nat.eqb j i then Some v else nth_error ts j.
Proof.
  revert i. induction ts as [| c ts IH]; intros i Hi; simpl in Hi.
  - lia.
  - destruct i as [| i].
    + exists (v :: ts). repeat split. intros [| j]; reflexivity.
    + destruct (IH i ltac:(lia)) as (ts' & E & L & N).
      exists (c :: ts'). simpl. rewrite E. repeat split.
      * simpl. congruence.
      * intros [| j]; simpl; [reflexivity | apply N].
Qed.

Lemma scatter_spec (F : nat -> tensor) (idxs : list nat) (ts : list tensor) :
  Forall (fun i => (i < length ts)%nat) idxs ->
  exists ts',
    fold_left (fun acc p => ts' <- acc ;; set_nth ts' (fst p) (snd p))
              (combine idxs (map F idxs)) (Ok ts) = Ok ts' /\
    length ts' = length ts /\
    forall j, nth_error ts' j
              = if existsb (Nat.eqb j) idxs then Some (F j)
                else nth_error ts j.
Proof.
  revert ts. induction idxs as [| i idxs IH]; intros ts H.
  - exists ts. repeat split.
  - inversion H as [| ? ? Hi Hrest]; subst.
    destruct (set_nth_spec ts i (F i) Hi) as (ts1 & E1 & L1 & N1).
    destruct (IH ts1) as (ts' & E & L & N).
    { rewrite L1. exact Hrest. }
    exists ts'. cbn [map combine fold_left bind fst snd].
    rewrite E1. split; [exact E |]. split; [congruence |].
    intros j. rewrite N, N1. cbn [existsb].
    destruct (Nat.eqb j i) eqn:Eji.
    + apply Nat.eqb_eq in Eji. subst j.
      destruct (existsb (Nat.eqb i) idxs); reflexivity.
    + reflexivity.
Qed.

Lemma take_spec (ts : list tensor) (idxs : list nat) :
  Forall (fun i => (i < length ts)%nat) idxs ->
  take (Arr ts) idxs = Ok (Arr (map (fun i => nth i ts (Scal 0)) idxs)).
Proof.
  intros H. unfold take.
  rewrite (mapM_ok _ (fun i => nth i ts (Scal 0))); [reflexivity |].
  eapply Forall_impl; [| exact H].
  intros i Hi. cbv beta. rewrite (nth_error_nth' ts (Scal 0) Hi). reflexivity.
Qed.

(** Reading the entries at [idxs], mapping [f] over them and writing them
    back changes exactly the entries at [idxs]. *)
Lemma packed_update (f : R -> R) (idxs : list nat) (ts : list tensor) :
  Forall (fun i => (i < length ts)%nat) idxs ->
  exists ts',
    (d <- take (Arr ts) idxs ;;
     advanced_set_subtensor1 (Arr ts) (tmap f d) idxs) = Ok (Arr ts') /\
    length ts' = length ts /\
    forall j, nth_error ts' j
              = if existsb (Nat.eqb j) idxs
                then Some (tmap f (nth j ts (Scal 0)))
                else nth_error ts j.
Proof.
  intros H. rewrite (take_spec ts idxs H). cbn [bind tmap].
  unfold advanced_set_subtensor1. rewrite map_map.
  destruct (scatter_spec (fun i => tmap f (nth i ts (Scal 0))) idxs ts H)
    as (ts' & E & L & N).
  exists ts'. rewrite E. repeat split; assumption.
Qed.

Lemma cumsum_nat_bound (m : nat) : forall acc s c,
  In c (cumsum_nat acc (seq s m)) ->
  (acc + s <= c /\ 2 * c + m <= 2 * acc + 2 * m * s + m * m)%nat.
Proof.
  induction m as [| m IH]; intros acc s c Hc.
  - contradiction.
  - cbn [seq cumsum_nat] in Hc. destruct Hc as [<- | Hc].
    + split; [lia | nia].
    + apply IH in Hc. destruct Hc as [H1 H2]. split; [lia | nia].
Qed.

Lemma diag_idxs_bound (n i : nat) :
  In i (CholeskyCovPacked.diag_idxs n) -> (2 * i + 2 <= n * (n + 1))%nat.
Proof.
  unfold CholeskyCovPacked.diag_idxs. intros Hi.
  apply in_map_iff in Hi. destruct Hi as (c & <- & Hc).
  apply cumsum_nat_bound in Hc. destruct Hc as [H1 H2]. nia.
Qed.

Lemma CholeskyCovPacked_round_trip (n : nat) (x : tensor) :
  packed_cholesky n x ->
  (y <- CholeskyCovPacked.forward n x ;; CholeskyCovPacked.backward n y)
  = Ok x.
Proof.
  intros (l & -> & Hlen & Hpos).
  set (idxs := CholeskyCovPacked.diag_idxs n) in *.
  set (ts := map Scal l).
  assert (Hin : Forall (fun i => (i < length ts)%nat) idxs).
  { apply Forall_forall. intros i Hi. apply diag_idxs_bound in Hi.
    subst ts. rewrite length_map. lia. }
  unfold CholeskyCovPacked.forward, CholeskyCovPacked.backward, vec.
  fold idxs. fold ts. unfold aet.log, aet.exp.
  destruct (packed_update ln idxs ts Hin) as (ts1 & E1 & L1 & N1).
  rewrite E1. cbn [bind].
  assert (Hin1 : Forall (fun i => (i < length ts1)%nat) idxs)
    by (rewrite L1; exact Hin).
  destruct (packed_update exp idxs ts1 Hin1) as (ts2 & E2 & L2 & N2).
  rewrite E2. do 2 f_equal.
  apply nth_error_ext. intros j. rewrite N2.
  destruct (existsb (Nat.eqb j) idxs) eqn:Ej.
  - apply existsb_exists in Ej. destruct Ej as (i & Hi & Eji).
    apply Nat.eqb_eq in Eji. subst i.
    rewrite Forall_forall in Hin. pose proof (Hin j Hi) as Hj.
    pose proof (N1 j) as Nj.
    assert (Ej : existsb (Nat.eqb j) idxs = true).
    { apply existsb_exists. exists j. split; [exact Hi | apply Nat.eqb_refl]. }
    rewrite Ej in Nj.
    rewrite (nth_error_nth _ _ (Scal 0) Nj).
    rewrite (nth_error_nth' ts (Scal 0) Hj).
    subst ts. change (Scal 0) with (Scal 0%R).
    rewrite (map_nth Scal l 0 j). cbn [tmap].
    rewrite exp_ln by (apply Hpos; exact Hi). reflexivity.
  - rewrite N1, Ej. reflexivity.
Qed.

(** ** Round trip of every concrete transform *)

Lemma rows_round_trip_bind (g1 g2 : list R -> result tensor)
    (P : list R -> Prop) (x : tensor) :
  (forall r, P r -> exists r', g1 r = Ok (vec r') /\ g2 r' = Ok (vec r)) ->
  all_rows P x ->
  (y <- rows g1 x ;; rows g2 y) = Ok x.
Proof.
  intros Hg Hx.
  destruct (rows_round_trip g1 g2 P Hg x Hx) as (y & E1 & E2 & _).
  rewrite E1. exact E2.
Qed.

Lemma reduce_rows_round_trip_bind (g1 g2 : list R -> result tensor)
    (P : list R -> Prop) (x : tensor) :
  (forall r, P r -> exists r', g1 r = Ok (vec r') /\ g2 r' = Ok (vec r)) ->
  all_rows P x ->
  (y <- reduce_rows g1 x ;; reduce_rows g2 y) = Ok x.
Proof.
  intros Hg Hx.
  destruct (rows_round_trip g1 g2 P Hg x Hx) as (y & E1 & E2 & Hy).
  rewrite (reduce_rows_not_scal g1 x (all_rows_not_scal P x Hx)), E1.
  cbn [bind]. rewrite (reduce_rows_not_scal g2 y Hy). exact E2.
Qed.

(** C1: for every concrete transform T and every x strictly inside the
    constrained domain declared for T, T.backward(T.forward(x)) returns x;
    for Circular it returns arctan2(sin(x), cos(x)) entry by entry. *)
Theorem concrete_round_trip gradient (T : concrete) (x : tensor) :
  domain T x ->
  (y <- forward (instance gradient T) x ;;
   backward (instance gradient T) y) = Ok (round_trip_value T x).
Proof.
  destruct T; cbn [domain instance forward backward round_trip_value
                   log log_exp_m1 logodds interval lowerbound upperbound
                   ordered sum_to_1 stick_breaking circular
                   cholesky_cov_packed]; intros Hx.
  - apply Log_round_trip. exact Hx.
  - apply LogExpM1_round_trip. exact Hx.
  - apply LogOdds_round_trip. exact Hx.
  - apply Interval_round_trip. exact Hx.
  - apply LowerBound_round_trip. exact Hx.
  - apply UpperBound_round_trip. exact Hx.
  - apply (rows_round_trip_bind _ _ _ x Ordered_row_round_trip Hx).
  - apply (rows_round_trip_bind _ _ _ x SumTo1_row_round_trip Hx).
  - apply (reduce_rows_round_trip_bind _ _ _ x
             StickBreaking_row_round_trip Hx).
  - apply Circular_round_trip.
  - apply CholeskyCovPacked_round_trip. exact Hx.
Qed.

Lemma concrete_round_trip_witness :
  domain CStickBreaking (Arr [vec [/ 2; / 2]; vec [/ 4; / 4; / 2]]) /\
  (y <- forward (instance (fun _ x => Ok x) CStickBreaking)
                (Arr [vec [/ 2; / 2]; vec [/ 4; / 4; / 2]]) ;;
   backward (instance (fun _ x => Ok x) CStickBreaking) y)
  = Ok (Arr [vec [/ 2; / 2]; vec [/ 4; / 4; / 2]]).
Proof.
  assert (D : domain CStickBreaking
                (Arr [vec [/ 2; / 2]; vec [/ 4; / 4; / 2]])).
  { simpl. unfold simplex_point, Rsum. simpl.
    repeat split; repeat constructor; lra. }
  split; [exact D |].
  exact (concrete_round_trip (fun _ x => Ok x) CStickBreaking _ D).
Defined.

(** ** StickBreaking and the simplex *)

Lemma vec_inj (l1 l2 : list R) : vec l1 = vec l2 -> l1 = l2.
Proof.
  unfold vec. intros H. injection H as H.
  revert l2 H. induction l1 as [| a l1 IH]; intros [| b l2] H;
    simpl in H; try discriminate; [reflexivity |].
  injection H as -> H. f_equal. auto.
Qed.

Lemma softmax_single (a : R) : softmax [a] = [1].
Proof.
  unfold softmax. cbn [map]. rewrite Rsum_cons, Rsum_nil. f_equal.
  pose proof (exp_pos a). field. lra.
Qed.

Lemma StickBreaking_backward_vec (y : list R) :
  StickBreaking.backward (vec y) = Ok (vec (softmax (y ++ [- Rsum y]))).
Proof.
  unfold StickBreaking.backward. rewrite reduce_rows_vec.
  apply StickBreaking_backward_row_eq.
Qed.

(** On the empty vector, the simplex of one value, [backward] returns the
    vector [1], whose entry is not inside (0,1). *)
Lemma StickBreaking_backward_empty_not_inside :
  ~ StickBreaking_simplex_claim [].
Proof.
  intros (x & E & _ & H & _).
  rewrite StickBreaking_backward_vec in E. cbn [app] in E.
  rewrite softmax_single in E.
  apply Ok_inj, vec_inj in E. subst x.
  inversion H; subst. lra.
Qed.

(** C3, amended: for any real vector y of length k-1,
    StickBreaking.backward(y) is a vector of length k whose entries sum
    to 1 and all lie in (0,1) when k is at least 2, and which is the
    vector [1] when k is 1; StickBreaking.forward maps it back to y. *)
Theorem StickBreaking_backward_simplex (y : list R) :
  exists x,
    StickBreaking.backward (vec y) = Ok (vec x) /\
    length x = S (length y) /\
    match y with
    | [] => x = [1]
    | _ :: _ => Forall (fun v => 0 < v < 1) x
    end /\
    Rsum x = 1 /\
    StickBreaking.forward (vec x) = Ok (vec y).
Proof.
  exists (softmax (y ++ [- Rsum y])).
  split; [apply StickBreaking_backward_vec |].
  split.
  { rewrite length_softmax, length_app. simpl. lia. }
  split.
  { destruct y as [| a y].
    - apply softmax_single.
    - pose proof (softmax_pos ((a :: y) ++ [- Rsum (a :: y)])) as Hp.
      pose proof (softmax_lt_1 ((a :: y) ++ [- Rsum (a :: y)])) as Hl.
      rewrite Forall_forall in *. intros v Hv. split.
      + apply Hp. exact Hv.
      + apply Hl; [| exact Hv]. rewrite length_app. simpl. lia. }
  split.
  { apply Rsum_softmax. destruct y; discriminate. }
  unfold StickBreaking.forward. rewrite reduce_rows_vec.
  rewrite StickBreaking_forward_softmax.
  - rewrite removelast_last. reflexivity.
  - destruct y; discriminate.
  - rewrite Rsum_app, Rsum_cons, Rsum_nil. ring.
Qed.

(** ** Ordered.backward is monotone *)

Lemma cumsum_from_monotone (s : R) (l : list R) :
  Forall (fun v => 0 < v) l -> adjacent Rle (s :: cumsum_from s l).
Proof.
  revert s. induction l as [| b l IH]; intros s H.
  - exact I.
  - inversion H; subst. cbn [cumsum_from]. split.
    + lra.
    + apply IH. assumption.
Qed.

Lemma Ordered_backward_row_monotone (r : list R) (t' : tensor) :
  Ordered.backward_row r = Ok t' ->
  exists r', t' = vec r' /\ adjacent Rle r'.
Proof.
  destruct r as [| y0 ys]; [discriminate |].
  rewrite Ordered_backward_row_eq. intros E. apply Ok_inj in E. subst t'.
  eexists. split; [reflexivity |].
  unfold cumsum. cbn [cumsum_from].
  apply cumsum_from_monotone. apply exp_list_pos.
Qed.

(** C6: every row of Ordered.backward(y) along the trailing axis is
    non-decreasing, each entry being at least the one before it; and
    Ordered.backward returns on every tensor whose rows are non-empty, in
    particular on every non-empty vector. *)
Theorem Ordered_backward_monotone (y : tensor) :
  (forall x, Ordered.backward y = Ok x -> all_rows (adjacent Rle) x) /\
  (all_rows (fun r => r <> []) y -> exists x, Ordered.backward y = Ok x).
Proof.
  split.
  - intros x. apply rows_post. apply Ordered_backward_row_monotone.
  - apply rows_total. intros [| y0 ys] Hr; [congruence |].
    rewrite Ordered_backward_row_eq. eauto.
Qed.

Lemma Ordered_backward_monotone_witness :
  all_rows (fun r => r <> []) (vec [0; 0; 1]) /\
  exists x, Ordered.backward (vec [0; 0; 1]) = Ok x /\
            all_rows (adjacent Rle) x.
Proof.
  assert (D : all_rows (fun r => r <> []) (vec [0; 0; 1]))
    by (simpl; discriminate).
  split; [exact D |].
  destruct (Ordered_backward_monotone (vec [0; 0; 1])) as [Hsorted Hret].
  destruct (Hret D) as (x & E).
  exists x. split; [exact E | exact (Hsorted x E)].
Defined.

(** ** SumTo1 *)

Lemma SumTo1_backward_vec (y : list R) :
  SumTo1.backward (vec y) = Ok (vec (y ++ [1 - Rsum y])).
Proof. unfold SumTo1.backward. rewrite rows_vec. reflexivity. Qed.

(** C9: for every real vector y, SumTo1.backward(y) is y followed by
    1 minus the sum of y: a vector one entry longer whose entries sum to
    exactly 1; its entries can lie outside [0,1], as for y = [2]. *)
Theorem SumTo1_backward_sums_to_1 (y : list R) :
  (exists x, SumTo1.backward (vec y) = Ok (vec x) /\
             x = y ++ [1 - Rsum y] /\
             length x = S (length y) /\
             Rsum x = 1) /\
  (exists x, SumTo1.backward (vec [2]) = Ok (vec x) /\
             Exists (fun v => ~ 0 <= v <= 1) x).
Proof.
  split.
  - exists (y ++ [1 - Rsum y]).
    split; [apply SumTo1_backward_vec |]. split; [reflexivity |]. split.
    + rewrite length_app. simpl. lia.
    + rewrite Rsum_app, Rsum_cons, Rsum_nil. ring.
  - exists ([2] ++ [1 - Rsum [2]]).
    split; [apply SumTo1_backward_vec |].
    constructor. lra.
Qed.

Lemma is_scal_tmap (f : R -> R) (c : tensor) : is_scal (tmap f c) = is_scal c.
Proof. destruct c; reflexivity. Qed.

Lemma forallb_is_scal_tmap (f : R -> R) (ts : list tensor) :
  forallb is_scal (map (tmap f) ts) = forallb is_scal ts.
Proof.
  induction ts as [| c ts IH]; simpl; [reflexivity |].
  rewrite is_scal_tmap, IH. reflexivity.
Qed.

Lemma Rsum_zeros (ts : list tensor) :
  forallb is_scal ts = true ->
  Rsum (map item (map (tmap (fun _ => 0)) ts)) = 0.
Proof.
  induction ts as [| c ts IH]; intros H.
  - reflexivity.
  - cbn [forallb] in H. apply andb_prop in H. destruct H as [Hc Hts].
    destruct c; [| discriminate]. cbn [map tmap item].
    rewrite Rsum_cons, IH by exact Hts. ring.
Qed.

Lemma mapM_map_ext {A B C : Type} (f : B -> result C) (g : A -> result C)
    (h : A -> B) (l : list A) :
  Forall (fun a => f (h a) = g a) l -> mapM f (map h l) = mapM g l.
Proof.
  induction 1 as [| a l Ha _ IH]; simpl.
  - reflexivity.
  - rewrite Ha, IH. reflexivity.
Qed.

(** Summing the zeros of the shape of [x] along the trailing axis puts a
    zero in the place of every row of [x]. *)
Lemma rows_sum_zeros (x : tensor) :
  rows (fun r => Ok (Scal (Rsum r))) (tmap (fun _ => 0) x)
  = rows (fun _ => Ok (Scal 0)) x.
Proof.
  induction x as [r | ts IH] using tensor_ind.
  - reflexivity.
  - cbn [tmap]. destruct (forallb is_scal ts) eqn:Hs.
    + rewrite rows_arr_row by (rewrite forallb_is_scal_tmap; exact Hs).
      rewrite (rows_arr_row _ ts Hs), Rsum_zeros by exact Hs. reflexivity.
    + rewrite rows_arr_batch by (rewrite forallb_is_scal_tmap; exact Hs).
      rewrite (rows_arr_batch _ ts Hs).
      rewrite (mapM_map_ext _ (rows (fun _ => Ok (Scal 0)))); [reflexivity |].
      exact IH.
Qed.

Lemma SumTo1_jacobian_det_rows (x : tensor) :
  is_scal x = false ->
  SumTo1.jacobian_det x = rows (fun _ => Ok (Scal 0)) x.
Proof.
  intros Hx. unfold SumTo1.jacobian_det, aet.zeros, zeros_like, sum_last.
  rewrite reduce_rows_not_scal by (rewrite is_scal_tmap; exact Hx).
  apply rows_sum_zeros.
Qed.

Lemma rows_entries (g : list R -> result tensor) (Q : R -> Prop) :
  (forall r t', g r = Ok t' -> entries Q t') ->
  forall t t', rows g t = Ok t' -> entries Q t'.
Proof.
  intros Hg.
  induction t as [r | ts IH] using tensor_ind; intros t' Ht.
  - discriminate.
  - destruct (forallb is_scal ts) eqn:Hs.
    + rewrite (rows_arr_row g ts Hs) in Ht. eapply Hg. exact Ht.
    + rewrite (rows_arr_batch g ts Hs) in Ht.
      destruct (mapM (rows g) ts) as [ts' |] eqn:Hm; simpl in Ht;
        [| discriminate].
      apply Ok_inj in Ht. subst t'. apply mapM_inv in Hm.
      unfold entries. cbn [flatten]. apply Forall_flat_map.
      clear Hs. induction Hm as [| c c' ts ts' Hc _ IHm].
      * constructor.
      * inversion IH; subst. constructor; [| auto].
        apply (H1 c' Hc).
Qed.

(** On a tensor of rank 0 the sum along the trailing axis is refused:
    SumTo1.jacobian_det raises ValueError and returns no zero. *)
Lemma SumTo1_jacobian_det_rank_0 :
  ~ SumTo1_jacobian_det_zero_claim (Scal 0).
Proof. intros (z & E & _). discriminate E. Qed.

(** C5, amended: for every input x that has a trailing axis,
    SumTo1.jacobian_det(x) returns the zero value, a zero in the place
    of every row of x along the trailing axis, so zero for every batch
    element; on a vector it returns the scalar 0, and on an input of
    rank 0 it raises ValueError. *)
Theorem SumTo1_jacobian_det_zero (x : tensor) :
  (all_rows (fun _ => True) x ->
   exists z, SumTo1.jacobian_det x = Ok z /\
             rows (fun _ => Ok (Scal 0)) x = Ok z /\
             entries (fun v => v = 0) z) /\
  (forall l, x = vec l -> SumTo1.jacobian_det x = Ok (Scal 0)) /\
  (forall r, x = Scal r -> SumTo1.jacobian_det x = Raise ValueError).
Proof.
  split; [| split].
  - intros Hx.
    pose proof (all_rows_not_scal _ x Hx) as Hs.
    destruct (rows_total (fun _ => Ok (Scal 0)) (fun _ => True)
                (fun r _ => ex_intro _ (Scal 0) eq_refl) x Hx) as (z & E).
    exists z. rewrite (SumTo1_jacobian_det_rows x Hs).
    split; [exact E |]. split; [exact E |].
    apply (rows_entries (fun _ => Ok (Scal 0)) (fun v => v = 0)) with (t := x);
      [| exact E].
    intros r t' Er. apply Ok_inj in Er. subst t'.
    constructor; [reflexivity | constructor].
  - intros l ->. rewrite SumTo1_jacobian_det_rows by reflexivity.
    apply rows_vec.
  - intros r ->. reflexivity.
Qed.

Lemma SumTo1_jacobian_det_zero_witness :
  all_rows (fun _ => True) (Arr [vec [/ 2; / 2]; vec [1; 0]]) /\
  (exists z, SumTo1.jacobian_det (Arr [vec [/ 2; / 2]; vec [1; 0]]) = Ok z /\
             rows (fun _ => Ok (Scal 0)) (Arr [vec [/ 2; / 2]; vec [1; 0]])
             = Ok z /\
             entries (fun v => v = 0) z) /\
  SumTo1.jacobian_det (vec [/ 2; / 2]) = Ok (Scal 0).
Proof.
  assert (D : all_rows (fun _ => True) (Arr [vec [/ 2; / 2]; vec [1; 0]]))
    by (simpl; auto).
  split; [exact D |]. split.
  - exact (proj1 (SumTo1_jacobian_det_zero _) D).
  - exact (proj1 (proj2 (SumTo1_jacobian_det_zero (vec [/ 2; / 2])))
             [/ 2; / 2] eq_refl).
Defined.

(** ** The log-Jacobian of Interval *)

Lemma sigmoid_derivative (t : R) :
  derivable_pt_lim sigmoid t (exp (- t) / Rsqr (1 + exp (- t))).
Proof.
  assert (D2 : derivable_pt_lim (fct_cte 1 + comp exp (- id))%F t
                                (0 + exp (- t) * (- 1))).
  { apply derivable_pt_lim_plus.
    - apply derivable_pt_lim_const.
    - apply derivable_pt_lim_comp.
      + apply derivable_pt_lim_opp. apply derivable_pt_lim_id.
      + apply derivable_pt_lim_exp. }
  assert (D1 : derivable_pt_lim (fct_cte 1) t 0)
    by apply derivable_pt_lim_const.
  pose proof (exp_pos (- t)) as He.
  assert (N : (fct_cte 1 + comp exp (- id))%F t <> 0).
  { unfold plus_fct, fct_cte, comp, opp_fct, id. lra. }
  pose proof (derivable_pt_lim_div _ _ _ _ _ D1 D2 N) as D.
  apply (derivable_pt_lim_ext
           (fct_cte 1 / (fct_cte 1 + comp exp (- id)))%F sigmoid) in D.
  - replace (exp (- t) / Rsqr (1 + exp (- t)))
      with ((0 * (fct_cte 1 + comp exp (- id))%F t
             - (0 + exp (- t) * -1) * fct_cte 1 t)
            / Rsqr ((fct_cte 1 + comp exp (- id))%F t)).
    + exact D.
    + unfold plus_fct, fct_cte, comp, opp_fct, id, Rsqr. field. lra.
  - intros z. unfold div_fct, plus_fct, fct_cte, comp, opp_fct, id, sigmoid.
    pose proof (exp_pos (- z)). field. lra.
Qed.

Lemma Interval_backward_derivative (a b t : R) :
  derivable_pt_lim (fun v => sigmoid v * b + (1 - sigmoid v) * a) t
                   ((b - a) * (exp (- t) / Rsqr (1 + exp (- t)))).
Proof.
  pose proof (sigmoid_derivative t) as Ds.
  set (s' := exp (- t) / Rsqr (1 + exp (- t))) in *.
  assert (D : derivable_pt_lim
                (sigmoid * fct_cte b + (fct_cte 1 - sigmoid) * fct_cte a)%F t
                ((s' * fct_cte b t + sigmoid t * 0)
                 + ((0 - s') * fct_cte a t
                    + (fct_cte 1 - sigmoid)%F t * 0))).
  { apply derivable_pt_lim_plus.
    - apply derivable_pt_lim_mult; [exact Ds | apply derivable_pt_lim_const].
    - apply derivable_pt_lim_mult; [| apply derivable_pt_lim_const].
      apply derivable_pt_lim_minus;
        [apply derivable_pt_lim_const | exact Ds]. }
  replace ((b - a) * s')
    with ((s' * fct_cte b t + sigmoid t * 0)
          + ((0 - s') * fct_cte a t + (fct_cte 1 - sigmoid)%F t * 0))
    by (unfold fct_cte, minus_fct; ring).
  exact D.
Qed.

Lemma ln_abs_Interval_derivative (a b y : R) :
  a < b ->
  ln (Rabs ((b - a) * (exp (- y) / Rsqr (1 + exp (- y)))))
  = ln (b - a) - 2 * softplus (- y) - y.
Proof.
  intros Hab. pose proof (exp_pos (- y)) as He.
  assert (H1 : 0 < 1 + exp (- y)) by lra.
  assert (H2 : 0 < Rsqr (1 + exp (- y))) by (unfold Rsqr; nra).
  assert (H3 : 0 < exp (- y) / Rsqr (1 + exp (- y)))
    by (apply Rdiv_lt_0_compat; assumption).
  rewrite Rabs_pos_eq by (apply Rlt_le, Rmult_lt_0_compat; lra).
  rewrite ln_mult by lra.
  unfold Rdiv.
  rewrite ln_mult by (try apply Rinv_0_lt_compat; assumption).
  rewrite ln_Rinv by assumption.
  unfold Rsqr. rewrite ln_mult, ln_exp by assumption.
  unfold softplus. ring.
Qed.

(** C4: for a < b, Interval(a,b).jacobian_det(y) is
    log(b-a) - 2 softplus(-y) - y on every entry, and at every real y this
    is the log of the absolute value of the derivative at y of
    Interval(a,b).backward, which is sigmoid(y) b + (1 - sigmoid(y)) a. *)
Theorem Interval_jacobian_det_log_abs_derivative (a b y : R) :
  a < b ->
  (forall x, Interval.jacobian_det (Scal a) (Scal b) x
             = Ok (tmap (fun v => ln (b - a) - 2 * softplus (- v) - v) x)) /\
  (forall v, Interval.backward (Scal a) (Scal b) (Scal v)
             = Ok (Scal (sigmoid v * b + (1 - sigmoid v) * a))) /\
  exists d,
    derivable_pt_lim (scalar_fun (Interval.backward (Scal a) (Scal b))) y d /\
    scalar_fun (Interval.jacobian_det (Scal a) (Scal b)) y = ln (Rabs d).
Proof.
  intros Hab.
  split; [intros x; apply Interval_jacobian_det_eq |].
  split; [intros v; apply Interval_backward_eq |].
  exists ((b - a) * (exp (- y) / Rsqr (1 + exp (- y)))). split.
  - apply (derivable_pt_lim_ext
             (fun v => sigmoid v * b + (1 - sigmoid v) * a)).
    + intros z. unfold scalar_fun. rewrite Interval_backward_eq. reflexivity.
    + apply Interval_backward_derivative.
  - unfold scalar_fun. rewrite Interval_jacobian_det_eq. cbn [tmap].
    symmetry. apply ln_abs_Interval_derivative. exact Hab.
Qed.

Lemma Interval_jacobian_det_log_abs_derivative_witness :
  0 < 1 /\
  exists d,
    derivable_pt_lim (scalar_fun (Interval.backward (Scal 0) (Scal 1))) 0 d /\
    scalar_fun (Interval.jacobian_det (Scal 0) (Scal 1)) 0 = ln (Rabs d).
Proof.
  split; [lra |].
  exact (proj2 (proj2 (Interval_jacobian_det_log_abs_derivative
                         0 1 0 ltac:(lra)))).
Defined.

(** ** Chain *)

Lemma fold_walk_step_raise (children : list Transform) (e : exn) :
  fold_left Chain.walk_step children (Raise e) = Raise e.
Proof. induction children as [| t ts IH]; simpl; auto. Qed.

Lemma walk_step_ok (acc : list tensor) (y : tensor) (n : nat)
    (transf : Transform) :
  Chain.walk_step (Ok (acc, y, n)) transf
  = (det_ <- jacobian_det transf y ;;
     y' <- backward transf y ;;
     Ok (acc ++ [det_], y', Nat.min n (ndim det_))).
Proof. reflexivity. Qed.

Lemma total_step_ok (m : nat) (det det_ : tensor) :
  Chain.total_step m (Ok det) det_
  = (v <- reduce_to m det_ ;; tadd det v).
Proof.
  unfold Chain.total_step, reduce_to. cbn [bind].
  destruct (m <? ndim det_)%nat; reflexivity.
Qed.

(** The first loop collects the values of the walk and the minimum of
    the initial bound and their numbers of dimensions. *)
Lemma fold_walk_step (children : list Transform) :
  forall (acc : list tensor) (y : tensor) (n : nat),
    match walk children y with
    | Ok dets =>
        exists y',
          fold_left Chain.walk_step children (Ok (acc, y, n))
          = Ok (acc ++ dets, y', fold_left Nat.min (map ndim dets) n)
    | Raise e =>
        fold_left Chain.walk_step children (Ok (acc, y, n)) = Raise e
    end.
Proof.
  induction children as [| t ts IH]; intros acc y n.
  - simpl. exists y. rewrite app_nil_r. reflexivity.
  - cbn [walk fold_left]. rewrite walk_step_ok.
    destruct (jacobian_det t y) as [d | e]; cbn [bind];
      [| apply fold_walk_step_raise].
    destruct (backward t y) as [y1 | e]; cbn [bind];
      [| apply fold_walk_step_raise].
    specialize (IH (acc ++ [d]) y1 (Nat.min n (ndim d))).
    destruct (walk ts y1) as [dets | e]; cbn [bind].
    + destruct IH as (y' & IH). exists y'. rewrite IH.
      rewrite <- app_assoc. reflexivity.
    + exact IH.
Qed.

Lemma fold_total_step_raise (m : nat) (dets : list tensor) (e : exn) :
  fold_left (Chain.total_step m) dets (Raise e) = Raise e.
Proof. induction dets as [| d ds IH]; simpl; auto. Qed.

(** The second loop adds up the reduced values. *)
Lemma fold_total_step (m : nat) (dets : list tensor) :
  forall det : tensor,
    fold_left (Chain.total_step m) dets (Ok det) = sum_reduced m dets det.
Proof.
  induction dets as [| d ds IH]; intros det.
  - reflexivity.
  - cbn [fold_left sum_reduced]. rewrite total_step_ok.
    destruct (reduce_to m d) as [v | e]; cbn [bind];
      [| apply fold_total_step_raise].
    destruct (tadd det v) as [det' | e]; cbn [bind];
      [apply IH | apply fold_total_step_raise].
Qed.

(** With a vector of bounds and a scalar argument, the only per-child
    value has one dimension: the minimum among the per-child values is 1
    and nothing would be reduced, but Chain.jacobian_det starts its
    minimum at the 0 dimensions of the argument and sums the value to a
    scalar. *)
Lemma Chain_jacobian_det_not_claimed :
  jacobian_det (Chain [interval (vec [0; 0]) (vec [1; 1])]) (Scal 0)
  <> claimed_jacobian_det [interval (vec [0; 0]) (vec [1; 1])] (Scal 0).
Proof.
  cbv [Chain Chain.jacobian_det claimed_jacobian_det rev app fold_left walk
       Chain.walk_step aet.as_tensor_variable bind interval jacobian_det
       backward].
  unfold Interval.jacobian_det, Interval.backward. cbn.
  discriminate.
Qed.

(** C2: at Chain([Interval([0,0],[1,1])]) and the number 0 the only
    per-child value is a vector of two entries, which is then the
    smallest jacobian_det: matching its shape, as the source's comment
    puts it, gives that vector, but Chain.jacobian_det returns the
    number that is the sum of its entries, because its minimum starts
    at the 0 dimensions of the argument. *)
Theorem Chain_jacobian_det_seeded_minimum :
  let a := vec [0; 0] in
  let b := vec [1; 1] in
  let d := ln (1 - 0) - 2 * softplus (- 0) - 0 in
  jacobian_det (interval a b) (Scal 0) = Ok (vec [d; d]) /\
  jacobian_det (Chain [interval a b]) (Scal 0)
  = Ok (Scal (0 + (d + (d + 0)))) /\
  claimed_jacobian_det [interval a b] (Scal 0) = Ok (vec [0 + d; 0 + d]).
Proof.
  cbv [Chain Chain.jacobian_det claimed_jacobian_det rev app fold_left walk
       Chain.walk_step aet.as_tensor_variable bind interval jacobian_det
       backward].
  unfold Interval.jacobian_det, Interval.backward. cbn.
  repeat split.
Qed.

(** What the two loops of Chain.jacobian_det compute: the children are
    walked in reverse order, each child's jacobian_det is taken on the
    current value and the child's backward makes the value for the next
    child; the minimum is seeded with the number of dimensions of y; and
    a per-child value with more dimensions than the minimum is summed
    over its trailing axis before it is added. *)
Theorem Chain_jacobian_det_spec (transform_list : list Transform)
    (y : tensor) :
  jacobian_det (Chain transform_list) y
  = seeded_jacobian_det transform_list y.
Proof.
  cbn [Chain jacobian_det].
  unfold Chain.jacobian_det, seeded_jacobian_det, aet.as_tensor_variable.
  pose proof (fold_walk_step (rev transform_list) [] y (ndim y)) as H.
  destruct (walk (rev transform_list) y) as [dets | e].
  - destruct H as (y' & ->). cbn [bind app]. apply fold_total_step.
  - rewrite H. reflexivity.
Qed.

(** Whenever no per-child value has more dimensions than y, the minimum
    among the per-child values is the tracked one, and the two readings
    agree. *)
Lemma min_ndim_bounded (n : nat) (dets : list tensor) :
  dets <> [] -> Forall (fun d => (ndim d <= n)%nat) dets ->
  fold_left Nat.min (map ndim dets) n = min_ndim dets.
Proof.
  intros Hne H. destruct H as [| d ds Hd _]; [congruence |].
  cbn [map fold_left min_ndim]. f_equal. lia.
Qed.

Lemma seeded_is_claimed_when_bounded (transform_list : list Transform)
    (y : tensor) (dets : list tensor) :
  walk (rev transform_list) y = Ok dets ->
  Forall (fun d => (ndim d <= ndim y)%nat) dets ->
  seeded_jacobian_det transform_list y
  = claimed_jacobian_det transform_list y.
Proof.
  intros Hw Hb. unfold seeded_jacobian_det, claimed_jacobian_det.
  rewrite Hw. cbn [bind].
  destruct dets as [| d ds]; [reflexivity |].
  rewrite min_ndim_bounded by (discriminate || exact Hb). reflexivity.
Qed.

(** C7: Chain([A,B]).forward(x) is B.forward(A.forward(x)), the children
    applied left to right, and Chain([A,B]).backward(y) is
    A.backward(B.backward(y)), the children inverted right to left. *)
Theorem Chain_pair (A B : Transform) (x y : tensor) :
  forward (Chain [A; B]) x = (u <- forward A x ;; forward B u) /\
  backward (Chain [A; B]) y = (v <- backward B y ;; backward A v).
Proof. split; reflexivity. Qed.

(** C8: forward, backward and jacobian_det of the abstract base raise
    NotImplementedError on every argument: none returns a value. *)
Theorem Transform_not_implemented (x : tensor) :
  forward transform x = Raise NotImplementedError /\
  backward transform x = Raise NotImplementedError /\
  jacobian_det transform x = Raise NotImplementedError /\
  forall v, forward transform x <> Ok v /\
            backward transform x <> Ok v /\
            jacobian_det transform x <> Ok v.
Proof.
  repeat split; try reflexivity; discriminate.
Qed.

(** C10: the Chain of the empty list is the identity: its forward and
    its backward return their argument and its jacobian_det returns 0. *)
Theorem Chain_empty (x : tensor) :
  forward (Chain []) x = Ok x /\
  backward (Chain []) x = Ok x /\
  jacobian_det (Chain []) x = Ok (Scal 0).
Proof. repeat split; reflexivity. Qed.

(** * Further properties of the transforms *)

(** ** Entries of an elementwise result *)

Lemma flatten_tmap (f : R -> R) (t : tensor) :
  flatten (tmap f t) = map f (flatten t).
Proof.
  induction t as [r | ts IH] using tensor_ind; cbn [tmap flatten].
  - reflexivity.
  - induction IH as [| c ts Hc _ IHts]; cbn [map flat_map].
    + reflexivity.
    + rewrite map_app, Hc, IHts. reflexivity.
Qed.

Lemma entries_tmap (P : R -> Prop) (f : R -> R) (t : tensor) :
  (forall v, P (f v)) -> entries P (tmap f t).
Proof.
  intros H. unfold entries. rewrite flatten_tmap.
  apply Forall_forall. intros w Hw. apply in_map_iff in Hw.
  destruct Hw as (v & <- & _). apply H.
Qed.

Lemma softplus_pos (v : R) : 0 < softplus v.
Proof.
  unfold softplus. rewrite <- ln_1.
  pose proof (exp_pos v). apply ln_increasing; lra.
Qed.

Lemma softplus_left_inverse (v : R) :
  ln (1 - exp (- softplus v)) + softplus v = v.
Proof.
  unfold softplus. pose proof (exp_pos v) as He.
  rewrite exp_opp_ln by lra.
  replace (1 - / (1 + exp v)) with (exp v * / (1 + exp v)) by (field; lra).
  rewrite ln_mult, ln_Rinv, ln_exp; try lra.
  apply Rinv_0_lt_compat. lra.
Qed.

Lemma sigmoid_bounds (v : R) : 0 < sigmoid v < 1.
Proof.
  unfold sigmoid. pose proof (exp_pos (- v)) as He. split.
  - apply Rinv_0_lt_compat. lra.
  - rewrite <- Rinv_1 at 2. apply Rinv_lt_contravar; lra.
Qed.

Lemma logit_sigmoid (v : R) : ln (sigmoid v / (1 - sigmoid v)) = v.
Proof.
  unfold sigmoid. pose proof (exp_pos (- v)) as He.
  replace (/ (1 + exp (- v)) / (1 - / (1 + exp (- v))))
    with (/ exp (- v)) by (field; lra).
  rewrite ln_Rinv, ln_exp by assumption. ring.
Qed.

(** X1: Log.backward maps every tensor to one with positive entries, and
    Log.forward maps that one back: with the round trip on the positive
    tensors, Log is a bijection between them and all tensors. *)
Theorem Log_backward_inverse (y : tensor) :
  exists x, Log.backward y = Ok x /\
            entries (fun v => 0 < v) x /\
            Log.forward x = Ok y.
Proof.
  exists (tmap exp y). split; [reflexivity |]. split.
  - apply entries_tmap. apply exp_pos.
  - unfold Log.forward. elemwise. f_equal.
    rewrite <- (tmap_id y) at 2. apply tmap_ext. apply ln_exp.
Qed.

(** X2: LogExpM1.backward maps every tensor to one with positive
    entries, and LogExpM1.forward maps that one back. *)
Theorem LogExpM1_backward_inverse (y : tensor) :
  exists x, LogExpM1.backward y = Ok x /\
            entries (fun v => 0 < v) x /\
            LogExpM1.forward x = Ok y.
Proof.
  exists (tmap softplus y). split; [reflexivity |]. split.
  - apply entries_tmap. apply softplus_pos.
  - rewrite LogExpM1_forward_eq, tmap_tmap. f_equal.
    rewrite <- (tmap_id y) at 2. apply tmap_ext.
    apply softplus_left_inverse.
Qed.

(** X3: LogOdds.backward maps every tensor to one with entries inside
    (0,1), and LogOdds.forward maps that one back. *)
Theorem LogOdds_backward_inverse (y : tensor) :
  exists x, LogOdds.backward y = Ok x /\
            entries (fun v => 0 < v < 1) x /\
            LogOdds.forward x = Ok y.
Proof.
  exists (tmap sigmoid y). split.
  - unfold LogOdds.backward. rewrite invlogit_sigmoid. reflexivity.
  - split.
    + apply entries_tmap. apply sigmoid_bounds.
    + unfold LogOdds.forward, logit. rewrite tmap_tmap. f_equal.
      rewrite <- (tmap_id y) at 2. apply tmap_ext. apply logit_sigmoid.
Qed.

Lemma interval_backward_bounds (a b v : R) :
  a < b -> a < sigmoid v * b + (1 - sigmoid v) * a < b.
Proof.
  intros Hab. pose proof (sigmoid_bounds v). nra.
Qed.

Lemma interval_left_inverse (a b v : R) :
  a < b ->
  ln (sigmoid v * b + (1 - sigmoid v) * a - a)
  - ln (b - (sigmoid v * b + (1 - sigmoid v) * a)) = v.
Proof.
  intros Hab. pose proof (sigmoid_bounds v) as [H0 H1].
  replace (sigmoid v * b + (1 - sigmoid v) * a - a)
    with (sigmoid v * (b - a)) by ring.
  replace (b - (sigmoid v * b + (1 - sigmoid v) * a))
    with ((1 - sigmoid v) * (b - a)) by ring.
  rewrite !ln_mult by lra.
  rewrite <- (logit_sigmoid v) at 3.
  unfold Rdiv. rewrite ln_mult, ln_Rinv; try lra.
  apply Rinv_0_lt_compat. lra.
Qed.

(** X4: for scalar bounds a < b, Interval(a,b).backward maps every tensor
    to one with entries inside (a,b), and Interval(a,b).forward maps that
    one back. *)
Theorem Interval_backward_inverse (a b : R) (y : tensor) :
  a < b ->
  exists x, Interval.backward (Scal a) (Scal b) y = Ok x /\
            entries (fun v => a < v < b) x /\
            Interval.forward (Scal a) (Scal b) x = Ok y.
Proof.
  intros Hab.
  exists (tmap (fun v => sigmoid v * b + (1 - sigmoid v) * a) y).
  split; [apply Interval_backward_eq |]. split.
  - apply entries_tmap. intros v. apply interval_backward_bounds. exact Hab.
  - rewrite Interval_forward_eq, tmap_tmap. f_equal.
    rewrite <- (tmap_id y) at 2. apply tmap_ext.
    intros v. apply interval_left_inverse. exact Hab.
Qed.

Lemma Interval_backward_inverse_witness :
  0 < 1 /\
  exists x, Interval.backward (Scal 0) (Scal 1) (vec [0; 1]) = Ok x /\
            entries (fun v => 0 < v < 1) x /\
            Interval.forward (Scal 0) (Scal 1) x = Ok (vec [0; 1]).
Proof.
  split; [lra |].
  apply (Interval_backward_inverse 0 1 (vec [0; 1])). lra.
Defined.

(** X5: LowerBound(a).backward maps every tensor to one with entries
    above a, UpperBound(b).backward to one with entries below b, and the
    forward of each maps the result back. *)
Theorem Bound_backward_inverse (a b : R) (y : tensor) :
  (exists x, LowerBound.backward (Scal a) y = Ok x /\
             entries (fun v => a < v) x /\
             LowerBound.forward (Scal a) x = Ok y) /\
  (exists x, UpperBound.backward (Scal b) y = Ok x /\
             entries (fun v => v < b) x /\
             UpperBound.forward (Scal b) x = Ok y).
Proof.
  split.
  - exists (tmap (fun v => exp v + a) y).
    split; [unfold LowerBound.backward; elemwise; reflexivity |]. split.
    + apply entries_tmap. intros v. pose proof (exp_pos v). lra.
    + unfold LowerBound.forward. elemwise. f_equal.
      rewrite <- (tmap_id y) at 2. apply tmap_ext. intros v.
      replace (exp v + a - a) with (exp v) by ring. apply ln_exp.
  - exists (tmap (fun v => b - exp v) y).
    split; [unfold UpperBound.backward; elemwise; reflexivity |]. split.
    + apply entries_tmap. intros v. pose proof (exp_pos v). lra.
    + unfold UpperBound.forward. elemwise. f_equal.
      rewrite <- (tmap_id y) at 2. apply tmap_ext. intros v.
      replace (b - (b - exp v)) with (exp v) by ring. apply ln_exp.
Qed.

(** ** Closed-form log-Jacobians against the derivative of backward *)

Lemma ln_abs_exp (y : R) : ln (Rabs (exp y)) = y.
Proof.
  rewrite Rabs_pos_eq by (apply Rlt_le, exp_pos). apply ln_exp.
Qed.

(** X6: the jacobian_det of Log, LowerBound(a) and UpperBound(b), which
    returns its argument, is the log of the absolute value of the
    derivative of the transform's backward: exp(y), exp(y) + a and
    b - exp(y) have the derivatives exp(y), exp(y) and -exp(y). *)
Theorem exp_transforms_jacobian_det (a b y : R) :
  (exists d, derivable_pt_lim (scalar_fun Log.backward) y d /\
             Log.jacobian_det (Scal y) = Ok (Scal (ln (Rabs d)))) /\
  (exists d, derivable_pt_lim (scalar_fun (LowerBound.backward (Scal a))) y d /\
             LowerBound.jacobian_det (Scal a) (Scal y)
             = Ok (Scal (ln (Rabs d)))) /\
  (exists d, derivable_pt_lim (scalar_fun (UpperBound.backward (Scal b))) y d /\
             UpperBound.jacobian_det (Scal b) (Scal y)
             = Ok (Scal (ln (Rabs d)))).
Proof.
  split; [| split].
  - exists (exp y). split.
    + apply (derivable_pt_lim_ext exp); [reflexivity |].
      apply derivable_pt_lim_exp.
    + rewrite ln_abs_exp. reflexivity.
  - exists (exp y + 0). split.
    + apply (derivable_pt_lim_ext (exp + fct_cte a)%F).
      * intros z. unfold scalar_fun, LowerBound.backward. elemwise.
        reflexivity.
      * apply derivable_pt_lim_plus;
          [apply derivable_pt_lim_exp | apply derivable_pt_lim_const].
    + rewrite Rplus_0_r, ln_abs_exp. reflexivity.
  - exists (0 - exp y). split.
    + apply (derivable_pt_lim_ext (fct_cte b - exp)%F).
      * intros z. unfold scalar_fun, UpperBound.backward. elemwise.
        reflexivity.
      * apply derivable_pt_lim_minus;
          [apply derivable_pt_lim_const | apply derivable_pt_lim_exp].
    + replace (0 - exp y) with (- exp y) by ring.
      rewrite Rabs_Ropp, ln_abs_exp. reflexivity.
Qed.

Lemma softplus_derivative (y : R) :
  derivable_pt_lim softplus y (exp y / (1 + exp y)).
Proof.
  pose proof (exp_pos y) as He.
  assert (D1 : derivable_pt_lim (fct_cte 1 + exp)%F y (0 + exp y)).
  { apply derivable_pt_lim_plus;
      [apply derivable_pt_lim_const | apply derivable_pt_lim_exp]. }
  assert (D2 : derivable_pt_lim ln ((fct_cte 1 + exp)%F y) (/ (1 + exp y))).
  { apply derivable_pt_lim_ln. unfold plus_fct, fct_cte. lra. }
  pose proof (derivable_pt_lim_comp _ _ _ _ _ D1 D2) as D.
  replace (exp y / (1 + exp y)) with (/ (1 + exp y) * (0 + exp y))
    by (field; lra).
  apply (derivable_pt_lim_ext (comp ln (fct_cte 1 + exp)%F)); [| exact D].
  intros z. reflexivity.
Qed.

(** X7: LogExpM1.jacobian_det(y), which is -softplus(-y), is the log of
    the absolute value of the derivative at y of LogExpM1.backward, the
    softplus. *)
Theorem LogExpM1_jacobian_det_log_abs_derivative (y : R) :
  exists d,
    derivable_pt_lim (scalar_fun LogExpM1.backward) y d /\
    LogExpM1.jacobian_det (Scal y) = Ok (Scal (ln (Rabs d))).
Proof.
  pose proof (exp_pos y) as He. pose proof (exp_pos (- y)) as Hn.
  exists (exp y / (1 + exp y)). split.
  - apply (derivable_pt_lim_ext softplus); [reflexivity |].
    apply softplus_derivative.
  - unfold LogExpM1.jacobian_det. elemwise. do 2 f_equal.
    rewrite Rabs_pos_eq by (apply Rlt_le, Rdiv_lt_0_compat; lra).
    replace (exp y / (1 + exp y)) with (/ (1 + exp (- y))).
    + rewrite ln_Rinv by lra. reflexivity.
    + rewrite exp_Ropp. field. lra.
Qed.

(** ** Circular *)

Lemma arctan2_range (s c : R) : - PI < arctan2 s c <= PI.
Proof.
  pose proof PI_RGT_0 as Hpi. unfold arctan2.
  pose proof (atan_bound (s / c)) as Hb.
  destruct (Rlt_dec 0 c) as [Hc | Hc]; [lra |].
  destruct (Rlt_dec c 0) as [Hc' | Hc'].
  - destruct (Rle_dec 0 s) as [Hs | Hs].
    + assert (H : atan (s / c) <= 0).
      { destruct Hs as [Hs | <-].
        - left. rewrite <- atan_0. apply atan_increasing.
          unfold Rdiv. assert (/ c < 0) by (apply Rinv_lt_0_compat; lra).
          nra.
        - unfold Rdiv. rewrite Rmult_0_l, atan_0. lra. }
      lra.
    + assert (H : 0 < atan (s / c)).
      { rewrite <- atan_0. apply atan_increasing.
        unfold Rdiv. assert (/ c < 0) by (apply Rinv_lt_0_compat; lra).
        nra. }
      lra.
  - destruct (Rlt_dec 0 s); [lra |].
    destruct (Rlt_dec s 0); lra.
Qed.

(** X8: Circular.backward wraps every entry into (-PI, PI], applying it
    twice is applying it once, and it does not see a full turn added to
    its argument. *)
Theorem Circular_backward_wraps (y : tensor) :
  exists x, Circular.backward y = Ok x /\
            entries (fun v => - PI < v <= PI) x /\
            Circular.backward x = Ok x /\
            Circular.backward (tmap (fun v => v + 2 * PI) y) = Ok x.
Proof.
  exists (tmap (fun v => arctan2 (sin v) (cos v)) y).
  split; [apply Circular_backward_eq |]. split; [| split].
  - apply entries_tmap. intros v. apply arctan2_range.
  - rewrite Circular_backward_eq, tmap_tmap. f_equal. apply tmap_ext.
    intros v. rewrite arctan2_sin_cos by apply arctan2_range. reflexivity.
  - rewrite Circular_backward_eq, tmap_tmap. f_equal. apply tmap_ext.
    intros v. rewrite <- (sin_period v 1), <- (cos_period v 1).
    simpl INR. rewrite Rmult_1_r. reflexivity.
Qed.

(** ** Ordered *)

Lemma cumsum_from_increasing (s : R) (l : list R) :
  Forall (fun v => 0 < v) l -> adjacent Rlt (s :: cumsum_from s l).
Proof.
  revert s. induction l as [| b l IH]; intros s H.
  - exact I.
  - apply Forall_cons_iff in H. destruct H as [Hb Hl].
    cbn [cumsum_from]. split; [lra | apply IH; exact Hl].
Qed.

Lemma ln_diffs_cumsum (s : R) (ys : list R) :
  map ln (diffs s (cumsum_from s (map exp ys))) = ys.
Proof.
  revert s. induction ys as [| y ys IH]; intros s.
  - reflexivity.
  - cbn [map cumsum_from diffs]. rewrite IH. f_equal.
    replace (s + exp y - s) with (exp y) by ring. apply ln_exp.
Qed.

Lemma Ordered_row_left_inverse (r : list R) :
  r <> [] ->
  exists r', Ordered.backward_row r = Ok (vec r') /\
             Ordered.forward_row r' = Ok (vec r).
Proof.
  intros Hne. destruct r as [| y0 ys]; [congruence |].
  exists (cumsum (y0 :: map exp ys)).
  split; [apply Ordered_backward_row_eq |].
  unfold cumsum. cbn [cumsum_from].
  rewrite Ordered_forward_row_eq, ln_diffs_cumsum, Rplus_0_l. reflexivity.
Qed.

Lemma Ordered_backward_row_increasing (r : list R) (t' : tensor) :
  Ordered.backward_row r = Ok t' ->
  exists r', t' = vec r' /\ r' <> [] /\ adjacent Rlt r'.
Proof.
  destruct r as [| y0 ys]; [discriminate |].
  rewrite Ordered_backward_row_eq. intros E. apply Ok_inj in E. subst t'.
  eexists. split; [reflexivity |].
  unfold cumsum. cbn [cumsum_from]. split; [discriminate |].
  apply cumsum_from_increasing. apply exp_list_pos.
Qed.

(** X9: on every tensor whose rows along the trailing axis are not
    empty, Ordered.backward returns a tensor whose rows are strictly
    increasing, and Ordered.forward maps it back. *)
Theorem Ordered_backward_inverse (y : tensor) :
  all_rows (fun r => r <> []) y ->
  exists x, Ordered.backward y = Ok x /\
            all_rows (fun r => r <> [] /\ adjacent Rlt r) x /\
            Ordered.forward x = Ok y.
Proof.
  intros Hy.
  destruct (rows_round_trip Ordered.backward_row Ordered.forward_row
              (fun r => r <> []) Ordered_row_left_inverse y Hy)
    as (x & E1 & E2 & _).
  exists x. split; [exact E1 |]. split; [| exact E2].
  apply (rows_post Ordered.backward_row
           (fun r => r <> [] /\ adjacent Rlt r)
           Ordered_backward_row_increasing y x E1).
Qed.

Lemma Ordered_backward_inverse_witness :
  all_rows (fun r => r <> []) (Arr [vec [1; 0]; vec [0; 0]]) /\
  exists x, Ordered.backward (Arr [vec [1; 0]; vec [0; 0]]) = Ok x /\
            all_rows (fun r => r <> [] /\ adjacent Rlt r) x /\
            Ordered.forward x = Ok (Arr [vec [1; 0]; vec [0; 0]]).
Proof.
  assert (D : all_rows (fun r => r <> [])
                (Arr [vec [1; 0]; vec [0; 0]]))
    by (simpl; repeat split; discriminate).
  split; [exact D |].
  exact (Ordered_backward_inverse _ D).
Defined.

(** X10: the three methods of Ordered raise IndexError on a tensor of
    rank 0, forward and backward raise IndexError on the empty vector
    while jacobian_det returns 0 on it, and a vector of one entry is
    returned unchanged by forward and backward with jacobian_det 0. *)
Theorem Ordered_edge_cases (r a : R) :
  (Ordered.forward (Scal r) = Raise IndexError /\
   Ordered.backward (Scal r) = Raise IndexError /\
   Ordered.jacobian_det (Scal r) = Raise IndexError) /\
  (Ordered.forward (vec []) = Raise IndexError /\
   Ordered.backward (vec []) = Raise IndexError /\
   Ordered.jacobian_det (vec []) = Ok (Scal 0)) /\
  (Ordered.forward (vec [a]) = Ok (vec [a]) /\
   Ordered.backward (vec [a]) = Ok (vec [a]) /\
   Ordered.jacobian_det (vec [a]) = Ok (Scal 0)).
Proof.
  split; [repeat split |]. split; [repeat split |].
  unfold Ordered.forward, Ordered.backward, Ordered.jacobian_det.
  rewrite !rows_vec, Ordered_forward_row_eq, Ordered_backward_row_eq.
  unfold cumsum. cbn [map diffs cumsum_from tl]. rewrite Rplus_0_l.
  repeat split.
Qed.

(** X11: on a non-empty vector y, Ordered.jacobian_det(y), the sum of
    y[1:], is the sum of the logs of the gaps between the neighbouring
    entries of Ordered.backward(y). *)
Theorem Ordered_jacobian_det_log_gaps (y0 : R) (ys : list R) :
  exists x0 xs,
    Ordered.backward (vec (y0 :: ys)) = Ok (vec (x0 :: xs)) /\
    Ordered.jacobian_det (vec (y0 :: ys)) = Ok (Scal (Rsum ys)) /\
    Rsum ys = Rsum (map ln (diffs x0 xs)).
Proof.
  exists (0 + y0), (cumsum_from (0 + y0) (map exp ys)).
  split; [| split].
  - unfold Ordered.backward. rewrite rows_vec, Ordered_backward_row_eq.
    reflexivity.
  - unfold Ordered.jacobian_det. rewrite rows_vec. reflexivity.
  - rewrite ln_diffs_cumsum. reflexivity.
Qed.

(** ** SumTo1 *)

Lemma SumTo1_row_left_inverse (r : list R) :
  True ->
  exists r', SumTo1.backward_row r = Ok (vec r') /\
             Ok (vec (removelast r')) = Ok (vec r).
Proof.
  intros _. exists (r ++ [1 - Rsum r]). split; [reflexivity |].
  rewrite removelast_last. reflexivity.
Qed.

Lemma SumTo1_backward_row_sum (r : list R) (t' : tensor) :
  SumTo1.backward_row r = Ok t' ->
  exists r', t' = vec r' /\ Rsum r' = 1.
Proof.
  unfold SumTo1.backward_row. intros E. apply Ok_inj in E. subst t'.
  eexists. split; [reflexivity |].
  rewrite Rsum_app, Rsum_cons, Rsum_nil. ring.
Qed.

(** X12: on every tensor with a trailing axis, SumTo1.backward returns a
    tensor whose rows along the trailing axis each sum to 1, and
    SumTo1.forward maps it back. *)
Theorem SumTo1_backward_inverse (y : tensor) :
  all_rows (fun _ => True) y ->
  exists x, SumTo1.backward y = Ok x /\
            all_rows (fun r => Rsum r = 1) x /\
            SumTo1.forward x = Ok y.
Proof.
  intros Hy.
  destruct (rows_round_trip SumTo1.backward_row
              (fun x => Ok (vec (removelast x)))
              (fun _ => True) SumTo1_row_left_inverse y Hy)
    as (x & E1 & E2 & _).
  exists x. split; [exact E1 |]. split; [| exact E2].
  apply (rows_post SumTo1.backward_row (fun r => Rsum r = 1)
           SumTo1_backward_row_sum y x E1).
Qed.

Lemma SumTo1_backward_inverse_witness :
  all_rows (fun _ => True) (Arr [vec [2; 3]; vec [0; 0]]) /\
  exists x, SumTo1.backward (Arr [vec [2; 3]; vec [0; 0]]) = Ok x /\
            all_rows (fun r => Rsum r = 1) x /\
            SumTo1.forward x = Ok (Arr [vec [2; 3]; vec [0; 0]]).
Proof.
  assert (D : all_rows (fun _ => True) (Arr [vec [2; 3]; vec [0; 0]]))
    by (simpl; auto).
  split; [exact D |].
  exact (SumTo1_backward_inverse _ D).
Defined.

Lemma app_last_inj (l1 l2 : list R) (a b : R) :
  l1 ++ [a] = l2 ++ [b] -> a = b.
Proof.
  intros H. apply (f_equal (fun l => last l 0)) in H.
  rewrite !last_last in H. exact H.
Qed.

(** X13: SumTo1.forward drops the last entry of a vector whatever it is,
    so SumTo1.backward(SumTo1.forward(x)) is x exactly when the entries
    of x sum to 1. *)
Theorem SumTo1_round_trip_iff (x : list R) :
  (y <- SumTo1.forward (vec x) ;; SumTo1.backward y) = Ok (vec x)
  <-> Rsum x = 1.
Proof.
  unfold SumTo1.forward. rewrite rows_vec. cbn [bind].
  rewrite SumTo1_backward_vec.
  destruct (list_eq_dec Req_dec_T x []) as [-> | Hne].
  - cbn [removelast app]. rewrite Rsum_nil. split.
    + intros E. apply Ok_inj, vec_inj in E. discriminate.
    + lra.
  - destruct (exists_last Hne) as (l & a & ->).
    rewrite removelast_last, Rsum_app, Rsum_cons, Rsum_nil. split.
    + intros E. apply Ok_inj, vec_inj, app_last_inj in E. lra.
    + intros E. replace (1 - Rsum l) with a by lra. reflexivity.
Qed.

(** ** StickBreaking *)

Lemma Rsum_map_plus (k : R) (l : list R) :
  Rsum (map (fun v => k + v) l) = INR (length l) * k + Rsum l.
Proof.
  induction l as [| a l IH].
  - cbn [map length]. rewrite Rsum_nil. simpl. ring.
  - cbn [map length]. rewrite !Rsum_cons, IH, S_INR. ring.
Qed.

Lemma StickBreaking_forward_row_scale (c : R) (x : list R) :
  0 < c -> Forall (fun v => 0 < v) x ->
  StickBreaking.forward_row (map (fun v => c * v) x)
  = StickBreaking.forward_row x.
Proof.
  intros Hc Hx. unfold StickBreaking.forward_row.
  destruct (list_eq_dec Req_dec_T x []) as [-> | Hne]; [reflexivity |].
  assert (E : map ln (map (fun v => c * v) x)
              = map (fun v => ln c + v) (map ln x)).
  { rewrite !map_map. apply map_ext_in. intros v Hv.
    rewrite Forall_forall in Hx. apply ln_mult; auto. }
  rewrite E, length_map, Rsum_map_plus, !removelast_map, !map_map, length_map.
  do 2 f_equal. apply map_ext. intros v.
  pose proof (INR_length_neq_0 x Hne). field. assumption.
Qed.

(** X14: StickBreaking.forward does not see a positive factor common to
    the entries of a vector of positive numbers, and
    StickBreaking.backward(StickBreaking.forward(x)) is x divided by the
    sum of its entries. *)
Theorem StickBreaking_normalises (c : R) (x : list R) :
  0 < c -> x <> [] -> Forall (fun v => 0 < v) x ->
  StickBreaking.forward (vec (map (fun v => c * v) x))
  = StickBreaking.forward (vec x) /\
  (y <- StickBreaking.forward (vec x) ;; StickBreaking.backward y)
  = Ok (vec (map (fun v => / Rsum x * v) x)).
Proof.
  intros Hc Hne Hx. unfold StickBreaking.forward. rewrite !reduce_rows_vec.
  split; [apply StickBreaking_forward_row_scale; assumption |].
  pose proof (Rsum_pos x Hne Hx) as Hs.
  assert (Hi : 0 < / Rsum x) by (apply Rinv_0_lt_compat; exact Hs).
  rewrite <- (StickBreaking_forward_row_scale (/ Rsum x) x Hi Hx).
  assert (S : simplex_point (map (fun v => / Rsum x * v) x)).
  { split.
    - apply Forall_forall. intros w Hw. apply in_map_iff in Hw.
      destruct Hw as (v & <- & Hv). rewrite Forall_forall in Hx.
      apply Rmult_lt_0_compat; auto.
    - rewrite (map_ext _ (fun v => v * / Rsum x))
        by (intros; apply Rmult_comm).
      rewrite Rsum_map_mult. apply Rinv_r. lra. }
  destruct (StickBreaking_row_round_trip _ S) as (y & E1 & E2).
  rewrite E1. cbn [bind]. unfold StickBreaking.backward.
  rewrite reduce_rows_vec. exact E2.
Qed.

Lemma StickBreaking_normalises_witness :
  0 < 2 /\ [1; 3] <> [] /\ Forall (fun v => 0 < v) [1; 3] /\
  StickBreaking.forward (vec (map (fun v => 2 * v) [1; 3]))
  = StickBreaking.forward (vec [1; 3]) /\
  (y <- StickBreaking.forward (vec [1; 3]) ;; StickBreaking.backward y)
  = Ok (vec (map (fun v => / Rsum [1; 3] * v) [1; 3])).
Proof.
  assert (H1 : 0 < 2) by lra.
  assert (H2 : [1; 3] <> []) by discriminate.
  assert (H3 : Forall (fun v => 0 < v) [1; 3])
    by (repeat constructor; lra).
  split; [exact H1 |]. split; [exact H2 |]. split; [exact H3 |].
  exact (StickBreaking_normalises 2 [1; 3] H1 H2 H3).
Defined.

Lemma StickBreaking_row_left_inverse_all (r : list R) :
  True ->
  exists r', StickBreaking.backward_row r = Ok (vec r') /\
             StickBreaking.forward_row r' = Ok (vec r).
Proof. intros _. apply StickBreaking_row_left_inverse. Qed.

Lemma StickBreaking_backward_row_simplex (r : list R) (t' : tensor) :
  StickBreaking.backward_row r = Ok t' ->
  exists r', t' = vec r' /\ simplex_point r'.
Proof.
  rewrite StickBreaking_backward_row_eq. intros E.
  apply Ok_inj in E. subst t'.
  eexists. split; [reflexivity |]. split.
  - apply softmax_pos.
  - apply Rsum_softmax. destruct r; discriminate.
Qed.

(** X15: on every tensor with a trailing axis, StickBreaking.backward
    returns a tensor whose rows along the trailing axis have positive
    entries that sum to 1, and StickBreaking.forward maps it back. *)
Theorem StickBreaking_backward_inverse (y : tensor) :
  all_rows (fun _ => True) y ->
  exists x, StickBreaking.backward y = Ok x /\
            all_rows simplex_point x /\
            StickBreaking.forward x = Ok y.
Proof.
  intros Hy.
  destruct (rows_round_trip StickBreaking.backward_row
              StickBreaking.forward_row
              (fun _ => True) StickBreaking_row_left_inverse_all y Hy)
    as (x & E1 & E2 & Hx).
  exists x. unfold StickBreaking.backward, StickBreaking.forward.
  rewrite (reduce_rows_not_scal _ y (all_rows_not_scal _ y Hy)).
  rewrite (reduce_rows_not_scal _ x Hx).
  split; [exact E1 |]. split; [| exact E2].
  apply (rows_post StickBreaking.backward_row simplex_point
           StickBreaking_backward_row_simplex y x E1).
Qed.

Lemma StickBreaking_backward_inverse_witness :
  all_rows (fun _ => True) (Arr [vec [1; 2]; vec [0; 0]]) /\
  exists x, StickBreaking.backward (Arr [vec [1; 2]; vec [0; 0]]) = Ok x /\
            all_rows simplex_point x /\
            StickBreaking.forward x = Ok (Arr [vec [1; 2]; vec [0; 0]]).
Proof.
  assert (D : all_rows (fun _ => True) (Arr [vec [1; 2]; vec [0; 0]]))
    by (simpl; auto).
  split; [exact D |].
  exact (StickBreaking_backward_inverse _ D).
Defined.

(** X16: on a tensor of rank 0, SumTo1.forward and SumTo1.backward,
    which index the trailing axis, raise IndexError, SumTo1.jacobian_det,
    StickBreaking.forward and StickBreaking.jacobian_det, which sum along
    an axis, raise ValueError, and StickBreaking.backward returns no
    value; on the empty vector the forward of each returns the empty
    vector, so that backward after forward returns the vector [1] and
    not the empty vector. *)
Theorem simplex_transforms_edge_cases (r : R) :
  (SumTo1.forward (Scal r) = Raise IndexError /\
   SumTo1.backward (Scal r) = Raise IndexError /\
   SumTo1.jacobian_det (Scal r) = Raise ValueError) /\
  (StickBreaking.forward (Scal r) = Raise ValueError /\
   StickBreaking.jacobian_det (Scal r) = Raise ValueError /\
   forall v, StickBreaking.backward (Scal r) <> Ok v) /\
  (SumTo1.forward (vec []) = Ok (vec []) /\
   (y <- SumTo1.forward (vec []) ;; SumTo1.backward y) = Ok (vec [1])) /\
  (StickBreaking.forward (vec []) = Ok (vec []) /\
   (y <- StickBreaking.forward (vec []) ;; StickBreaking.backward y)
   = Ok (vec [1])).
Proof.
  split; [repeat split |].
  split; [repeat split; discriminate |]. split.
  - split; [reflexivity |].
    unfold SumTo1.forward. rewrite rows_vec. cbn [bind removelast].
    rewrite SumTo1_backward_vec. cbn [app]. rewrite Rsum_nil.
    replace (1 - 0) with 1 by ring. reflexivity.
  - split; [reflexivity |].
    unfold StickBreaking.forward. rewrite reduce_rows_vec.
    unfold StickBreaking.forward_row. cbn [map removelast bind].
    rewrite StickBreaking_backward_vec. cbn [app].
    rewrite softmax_single. reflexivity.
Qed.

(** ** CholeskyCovPacked *)

Lemma length_cumsum_nat (l : list nat) :
  forall acc, length (cumsum_nat acc l) = length l.
Proof.
  induction l as [| a l IH]; intros acc; simpl; [reflexivity |].
  rewrite IH. reflexivity.
Qed.

Lemma cumsum_nat_nth (m : nat) : forall acc s i,
  (i < m)%nat ->
  (2 * nth i (cumsum_nat acc (seq s m)) 0
   = 2 * acc + 2 * (i + 1) * s + i * (i + 1))%nat.
Proof.
  induction m as [| m IH]; intros acc s i Hi; [lia |].
  cbn [seq cumsum_nat]. destruct i as [| i].
  - cbn [nth]. lia.
  - cbn [nth]. rewrite IH by lia. nia.
Qed.

Lemma length_diag_idxs (n : nat) :
  length (CholeskyCovPacked.diag_idxs n) = n.
Proof.
  unfold CholeskyCovPacked.diag_idxs.
  rewrite length_map, length_cumsum_nat, length_seq. reflexivity.
Qed.

Lemma diag_idxs_nth (n i : nat) :
  (i < n)%nat ->
  (2 * (nth i (CholeskyCovPacked.diag_idxs n) 0 + 1)
   = (i + 1) * (i + 2))%nat.
Proof.
  intros Hi. unfold CholeskyCovPacked.diag_idxs.
  assert (E : nth i (map (fun c => (c - 1)%nat) (cumsum_nat 0 (seq 1 n))) 0%nat
              = (nth i (cumsum_nat 0 (seq 1 n)) 0 - 1)%nat)
    by exact (map_nth (fun c => (c - 1)%nat) _ 0%nat i).
  rewrite E.
  pose proof (cumsum_nat_nth n 0 1 i Hi) as H.
  nia.
Qed.

(** X17: CholeskyCovPacked(n) has n diagonal indices, the i-th (from 0)
    being (i+1)(i+2)/2 - 1, that is 0, 2, 5, 9, ...; they increase
    strictly and lie below n(n+1)/2. *)
Theorem diag_idxs_closed_form (n : nat) :
  length (CholeskyCovPacked.diag_idxs n) = n /\
  (forall i, (i < n)%nat ->
     (2 * (nth i (CholeskyCovPacked.diag_idxs n) 0 + 1)
      = (i + 1) * (i + 2))%nat) /\
  (forall i j, (i < j < n)%nat ->
     (nth i (CholeskyCovPacked.diag_idxs n) 0
      < nth j (CholeskyCovPacked.diag_idxs n) 0)%nat) /\
  (forall i, (i < n)%nat ->
     (2 * nth i (CholeskyCovPacked.diag_idxs n) 0 + 2 <= n * (n + 1))%nat).
Proof.
  split; [apply length_diag_idxs |].
  split; [apply diag_idxs_nth |]. split.
  - intros i j [Hij Hj].
    pose proof (diag_idxs_nth n i ltac:(lia)).
    pose proof (diag_idxs_nth n j Hj). nia.
  - intros i Hi. pose proof (diag_idxs_nth n i Hi). nia.
Qed.

Lemma diag_idxs_closed_form_witness :
  (1 < 3 < 4)%nat /\
  CholeskyCovPacked.diag_idxs 4 = [0; 2; 5; 9]%nat /\
  (nth 1 (CholeskyCovPacked.diag_idxs 4) 0
   < nth 3 (CholeskyCovPacked.diag_idxs 4) 0)%nat.
Proof.
  split; [lia |]. split; [reflexivity |].
  apply (proj1 (proj2 (proj2 (diag_idxs_closed_form 4))) 1%nat 3%nat). lia.
Defined.

Lemma length_update_diag (f : R -> R) (n : nat) (l : list R) :
  length (update_diag f n l) = length l.
Proof. unfold update_diag. rewrite length_map, length_seq. reflexivity. Qed.

Lemma nth_update_diag (f : R -> R) (n : nat) (l : list R) (j : nat) :
  (j < length l)%nat ->
  nth j (update_diag f n l) 0
  = if existsb (Nat.eqb j) (CholeskyCovPacked.diag_idxs n)
    then f (nth j l 0) else nth j l 0.
Proof.
  intros Hj. unfold update_diag.
  set (g := fun j => if existsb (Nat.eqb j) (CholeskyCovPacked.diag_idxs n)
                     then f (nth j l 0) else nth j l 0).
  rewrite (nth_indep _ 0 (g 0%nat))
    by (rewrite length_map, length_seq; exact Hj).
  rewrite (map_nth g), seq_nth by exact Hj. reflexivity.
Qed.

Lemma diag_idxs_in_range (n : nat) (l : list R) :
  (n * (n + 1) <= 2 * length l)%nat ->
  Forall (fun i => (i < length (map Scal l))%nat)
         (CholeskyCovPacked.diag_idxs n).
Proof.
  intros Hlen. apply Forall_forall. intros i Hi.
  apply diag_idxs_bound in Hi. rewrite length_map. lia.
Qed.

(** On a vector long enough, reading the diagonal entries, mapping [f]
    over them and writing them back gives [update_diag]. *)
Lemma packed_update_vec (f : R -> R) (n : nat) (l : list R) :
  (n * (n + 1) <= 2 * length l)%nat ->
  (d <- take (vec l) (CholeskyCovPacked.diag_idxs n) ;;
   advanced_set_subtensor1 (vec l) (tmap f d)
                           (CholeskyCovPacked.diag_idxs n))
  = Ok (vec (update_diag f n l)).
Proof.
  intros Hlen. unfold vec.
  pose proof (diag_idxs_in_range n l Hlen) as Hin.
  destruct (packed_update f _ _ Hin) as (ts' & E & L & N).
  rewrite E. do 2 f_equal.
  apply nth_error_ext. intros j. rewrite N.
  rewrite length_map in L.
  destruct (Nat.lt_ge_cases j (length l)) as [Hj | Hj].
  - rewrite (nth_error_nth' (map Scal (update_diag f n l)) (Scal 0))
      by (rewrite length_map, length_update_diag; exact Hj).
    rewrite (map_nth Scal (update_diag f n l) 0 j).
    rewrite nth_update_diag by exact Hj.
    rewrite (nth_error_nth' (map Scal l) (Scal 0))
      by (rewrite length_map; exact Hj).
    rewrite (map_nth Scal l 0 j).
    destruct (existsb (Nat.eqb j) (CholeskyCovPacked.diag_idxs n));
      reflexivity.
  - assert (E1 : nth_error (map Scal (update_diag f n l)) j = None).
    { apply nth_error_None. rewrite length_map, length_update_diag. lia. }
    rewrite E1.
    destruct (existsb (Nat.eqb j) (CholeskyCovPacked.diag_idxs n)) eqn:Ej.
    + apply existsb_exists in Ej. destruct Ej as (i & Hi & Eji).
      apply Nat.eqb_eq in Eji. subst i.
      apply diag_idxs_bound in Hi. lia.
    + apply nth_error_None. rewrite length_map. lia.
Qed.

(** X18: on a vector holding at least the n(n+1)/2 entries of a packed
    triangle, CholeskyCovPacked(n).forward takes the logarithm of the
    entries at the diagonal indices and CholeskyCovPacked(n).backward
    their exponential; both keep the length and return every other
    entry unchanged. *)
Theorem CholeskyCovPacked_diagonal_only (n : nat) (l : list R) :
  (n * (n + 1) <= 2 * length l)%nat ->
  exists lf lb,
    CholeskyCovPacked.forward n (vec l) = Ok (vec lf) /\
    CholeskyCovPacked.backward n (vec l) = Ok (vec lb) /\
    length lf = length l /\ length lb = length l /\
    forall j, (j < length l)%nat ->
      if existsb (Nat.eqb j) (CholeskyCovPacked.diag_idxs n)
      then nth j lf 0 = ln (nth j l 0) /\ nth j lb 0 = exp (nth j l 0)
      else nth j lf 0 = nth j l 0 /\ nth j lb 0 = nth j l 0.
Proof.
  intros Hlen. exists (update_diag ln n l), (update_diag exp n l).
  split; [apply (packed_update_vec ln n l Hlen) |].
  split; [apply (packed_update_vec exp n l Hlen) |].
  split; [apply length_update_diag |].
  split; [apply length_update_diag |].
  intros j Hj. rewrite !nth_update_diag by exact Hj.
  destruct (existsb (Nat.eqb j) (CholeskyCovPacked.diag_idxs n));
    split; reflexivity.
Qed.

Lemma CholeskyCovPacked_diagonal_only_witness :
  (2 * (2 + 1) <= 2 * length [1; 7; 1]%R)%nat /\
  exists lf lb,
    CholeskyCovPacked.forward 2 (vec [1; 7; 1]) = Ok (vec lf) /\
    CholeskyCovPacked.backward 2 (vec [1; 7; 1]) = Ok (vec lb) /\
    nth 1 lf 0 = 7 /\ nth 1 lb 0 = 7.
Proof.
  assert (H : (2 * (2 + 1) <= 2 * length [1; 7; 1]%R)%nat) by (simpl; lia).
  split; [exact H |].
  destruct (CholeskyCovPacked_diagonal_only 2 [1; 7; 1] H)
    as (lf & lb & Ef & Eb & _ & _ & Hj).
  exists lf, lb. split; [exact Ef |]. split; [exact Eb |].
  exact (Hj 1%nat ltac:(simpl; lia)).
Defined.

(** X19: on a vector holding at least the n(n+1)/2 entries of a packed
    triangle, CholeskyCovPacked(n).forward maps what
    CholeskyCovPacked(n).backward returns back to the vector, whatever
    the signs of its entries. *)
Theorem CholeskyCovPacked_backward_inverse (n : nat) (l : list R) :
  (n * (n + 1) <= 2 * length l)%nat ->
  (x <- CholeskyCovPacked.backward n (vec l) ;;
   CholeskyCovPacked.forward n x) = Ok (vec l).
Proof.
  intros Hlen. unfold CholeskyCovPacked.backward, CholeskyCovPacked.forward.
  unfold aet.exp, aet.log.
  rewrite (packed_update_vec exp n l Hlen). cbn [bind].
  rewrite (packed_update_vec ln n (update_diag exp n l))
    by (rewrite length_update_diag; exact Hlen).
  do 2 f_equal.
  apply (nth_ext _ _ 0 0).
  - rewrite !length_update_diag. reflexivity.
  - intros j Hj. rewrite !length_update_diag in Hj.
    rewrite nth_update_diag by (rewrite length_update_diag; exact Hj).
    rewrite nth_update_diag by exact Hj.
    destruct (existsb (Nat.eqb j) (CholeskyCovPacked.diag_idxs n));
      [apply ln_exp | reflexivity].
Qed.

Lemma CholeskyCovPacked_backward_inverse_witness :
  (2 * (2 + 1) <= 2 * length [-1; 7; 0]%R)%nat /\
  (x <- CholeskyCovPacked.backward 2 (vec [-1; 7; 0]) ;;
   CholeskyCovPacked.forward 2 x) = Ok (vec [-1; 7; 0]).
Proof.
  assert (H : (2 * (2 + 1) <= 2 * length [-1; 7; 0]%R)%nat) by (simpl; lia).
  split; [exact H |].
  exact (CholeskyCovPacked_backward_inverse 2 [-1; 7; 0] H).
Defined.

Lemma mapM_raise {A B : Type} (f : A -> result B) (e : exn) (l : list A) :
  (exists a, In a l /\ f a = Raise e) ->
  (forall a, In a l -> f a = Raise e \/ exists b, f a = Ok b) ->
  mapM f l = Raise e.
Proof.
  induction l as [| a l IH]; intros (a0 & Hin & Ha0) Hall.
  - contradiction.
  - cbn [mapM]. destruct (Hall a (or_introl eq_refl)) as [Ha | (b & Ha)].
    + rewrite Ha. reflexivity.
    + rewrite Ha. cbn [bind].
      destruct Hin as [<- | Hin]; [congruence |].
      rewrite IH; [reflexivity | eauto |].
      intros a1 H1. apply Hall. right. exact H1.
Qed.

Lemma take_too_short (n : nat) (l : list R) :
  (2 * length l < n * (n + 1))%nat ->
  take (vec l) (CholeskyCovPacked.diag_idxs n) = Raise IndexError.
Proof.
  intros Hlen. unfold vec, take.
  rewrite (mapM_raise _ IndexError); [reflexivity | |].
  - assert (Hn : (n - 1 < n)%nat) by (destruct n; simpl in *; lia).
    exists (nth (n - 1) (CholeskyCovPacked.diag_idxs n) 0%nat). split.
    + apply nth_In. rewrite length_diag_idxs. exact Hn.
    + pose proof (diag_idxs_nth n (n - 1) Hn) as H.
      assert (E : nth_error (map Scal l)
                    (nth (n - 1) (CholeskyCovPacked.diag_idxs n) 0%nat)
                  = None).
      { apply nth_error_None. rewrite length_map. nia. }
      rewrite E. reflexivity.
  - intros i _. destruct (nth_error (map Scal l) i); eauto.
Qed.

(** X20: on a vector shorter than the n(n+1)/2 entries of a packed
    triangle, the three methods of CholeskyCovPacked(n) raise IndexError:
    a diagonal index is out of bounds. *)
Theorem CholeskyCovPacked_too_short (n : nat) (l : list R) :
  (2 * length l < n * (n + 1))%nat ->
  CholeskyCovPacked.forward n (vec l) = Raise IndexError /\
  CholeskyCovPacked.backward n (vec l) = Raise IndexError /\
  CholeskyCovPacked.jacobian_det n (vec l) = Raise IndexError.
Proof.
  intros Hlen.
  unfold CholeskyCovPacked.forward, CholeskyCovPacked.backward,
    CholeskyCovPacked.jacobian_det.
  rewrite (take_too_short n l Hlen). repeat split.
Qed.

Lemma CholeskyCovPacked_too_short_witness :
  (2 * length [1; 7]%R < 2 * (2 + 1))%nat /\
  CholeskyCovPacked.forward 2 (vec [1; 7]) = Raise IndexError /\
  CholeskyCovPacked.backward 2 (vec [1; 7]) = Raise IndexError /\
  CholeskyCovPacked.jacobian_det 2 (vec [1; 7]) = Raise IndexError.
Proof.
  assert (H : (2 * length [1; 7]%R < 2 * (2 + 1))%nat) by (simpl; lia).
  split; [exact H |].
  exact (CholeskyCovPacked_too_short 2 [1; 7] H).
Defined.

(** ** Chain: composition and exceptions *)

Lemma fold_bind_raise (f : Transform -> tensor -> result tensor)
    (ts : list Transform) (e : exn) :
  fold_left (fun y transf => y <- y ;; f transf y) ts (Raise e) = Raise e.
Proof. induction ts as [| t ts IH]; simpl; auto. Qed.

Lemma fold_bind_app (f : Transform -> tensor -> result tensor)
    (l1 l2 : list Transform) (x : tensor) :
  fold_left (fun y transf => y <- y ;; f transf y) (l1 ++ l2) (Ok x)
  = (u <- fold_left (fun y transf => y <- y ;; f transf y) l1 (Ok x) ;;
     fold_left (fun y transf => y <- y ;; f transf y) l2 (Ok u)).
Proof.
  rewrite fold_left_app.
  destruct (fold_left (fun y transf => y <- y ;; f transf y) l1 (Ok x))
    as [u | e]; [reflexivity | apply fold_bind_raise].
Qed.

Lemma Chain_forward_app (l1 l2 : list Transform) (x : tensor) :
  Chain.forward (l1 ++ l2) x
  = (u <- Chain.forward l1 x ;; Chain.forward l2 u).
Proof. apply (fold_bind_app forward). Qed.

Lemma Chain_backward_app (l1 l2 : list Transform) (y : tensor) :
  Chain.backward (l1 ++ l2) y
  = (v <- Chain.backward l2 y ;; Chain.backward l1 v).
Proof.
  unfold Chain.backward. rewrite rev_app_distr.
  apply (fold_bind_app backward).
Qed.

(** X21: a Chain of two lists of children put end to end goes forward
    through the first list and then through the second, and backward
    through the second and then through the first; an exception of the
    part that runs first is the exception of the whole. *)
Theorem Chain_app (l1 l2 : list Transform) (x : tensor) :
  forward (Chain (l1 ++ l2)) x
  = (u <- forward (Chain l1) x ;; forward (Chain l2) u) /\
  backward (Chain (l1 ++ l2)) x
  = (v <- backward (Chain l2) x ;; backward (Chain l1) v).
Proof.
  split; [apply Chain_forward_app | apply Chain_backward_app].
Qed.

(** X22: when the children round trip one after the other from x, each
    child's backward returning what its forward received, the Chain
    round trips from x. *)
Theorem Chain_round_trip (transform_list : list Transform) (x : tensor) :
  round_trips transform_list x ->
  exists y, forward (Chain transform_list) x = Ok y /\
            backward (Chain transform_list) y = Ok x.
Proof.
  cbn [Chain forward backward].
  revert x. induction transform_list as [| t ts IH]; intros x H.
  - exists x. split; reflexivity.
  - destruct H as (u & Hf & Hb & Hrest).
    destruct (IH u Hrest) as (y & Ef & Eb).
    exists y. split.
    + change (t :: ts) with ([t] ++ ts). rewrite Chain_forward_app.
      unfold Chain.forward at 1. cbn [fold_left bind]. rewrite Hf.
      exact Ef.
    + change (t :: ts) with ([t] ++ ts). rewrite Chain_backward_app.
      rewrite Eb. cbn [bind]. unfold Chain.backward.
      cbn [rev app fold_left bind]. exact Hb.
Qed.

Lemma Chain_round_trip_witness :
  round_trips [lowerbound (Scal 0); log] (Scal (exp 1)) /\
  exists y,
    forward (Chain [lowerbound (Scal 0); log]) (Scal (exp 1)) = Ok y /\
    backward (Chain [lowerbound (Scal 0); log]) y = Ok (Scal (exp 1)).
Proof.
  assert (D : round_trips [lowerbound (Scal 0); log] (Scal (exp 1))).
  { cbn [round_trips lowerbound log forward backward].
    exists (Scal 1). split.
    - unfold LowerBound.forward. elemwise.
      replace (exp 1 - 0) with (exp 1) by ring. rewrite ln_exp. reflexivity.
    - split.
      + unfold LowerBound.backward. elemwise.
        replace (exp 1 + 0) with (exp 1) by ring. reflexivity.
      + exists (Scal (ln 1)). split; [reflexivity |]. split; [| exact I].
        unfold Log.backward, aet.exp. cbn [tmap].
        rewrite exp_ln by lra. reflexivity. }
  split; [exact D |].
  exact (Chain_round_trip _ _ D).
Defined.

Lemma Chain_jacobian_det_last (l1 : list Transform) (t : Transform)
    (x : tensor) :
  Chain.jacobian_det (l1 ++ [t]) x
  = (st <- fold_left Chain.walk_step (rev l1)
             (det_ <- jacobian_det t x ;;
              y <- backward t x ;;
              Ok ([det_], y, Nat.min (ndim x) (ndim det_))) ;;
     let '(det_list, _, ndim0) := st in
     fold_left (Chain.total_step ndim0) det_list (Ok (Scal 0))).
Proof.
  unfold Chain.jacobian_det, aet.as_tensor_variable.
  rewrite rev_app_distr. cbn [rev app fold_left].
  rewrite walk_step_ok. reflexivity.
Qed.

(** X23: in a Chain, the exception of the first child that raises is the
    exception of the call: of the first child forward, of the last child
    backward, and in jacobian_det of the last child's jacobian_det or,
    when that returns, of the last child's backward. *)
Theorem Chain_first_exception (l1 l2 : list Transform) (t : Transform)
    (x u d : tensor) (e : exn) :
  (forward (Chain l1) x = Ok u -> forward t u = Raise e ->
   forward (Chain (l1 ++ t :: l2)) x = Raise e) /\
  (backward (Chain l2) x = Ok u -> backward t u = Raise e ->
   backward (Chain (l1 ++ t :: l2)) x = Raise e) /\
  (jacobian_det t x = Raise e ->
   jacobian_det (Chain (l1 ++ [t])) x = Raise e) /\
  (jacobian_det t x = Ok d -> backward t x = Raise e ->
   jacobian_det (Chain (l1 ++ [t])) x = Raise e).
Proof.
  cbn [Chain forward backward jacobian_det].
  split; [| split; [| split]].
  - intros H1 Ht. rewrite Chain_forward_app, H1. cbn [bind].
    unfold Chain.forward. cbn [fold_left bind]. rewrite Ht.
    apply fold_bind_raise.
  - intros H2 Ht. rewrite Chain_backward_app.
    change (t :: l2) with ([t] ++ l2). rewrite Chain_backward_app, H2.
    cbn [bind]. unfold Chain.backward at 1. cbn [rev app fold_left bind].
    rewrite Ht. reflexivity.
  - intros Ht. rewrite Chain_jacobian_det_last, Ht. cbn [bind].
    rewrite fold_walk_step_raise. reflexivity.
  - intros Hd Ht. rewrite Chain_jacobian_det_last, Hd, Ht. cbn [bind].
    rewrite fold_walk_step_raise. reflexivity.
Qed.

Lemma Chain_first_exception_witness :
  forward (Chain [log]) (Scal 1) = Ok (Scal (ln 1)) /\
  forward transform (Scal (ln 1)) = Raise NotImplementedError /\
  forward (Chain ([log] ++ transform :: [log])) (Scal 1)
  = Raise NotImplementedError /\
  jacobian_det (Chain ([log] ++ [transform])) (Scal 1)
  = Raise NotImplementedError.
Proof.
  assert (H1 : forward (Chain [log]) (Scal 1) = Ok (Scal (ln 1)))
    by reflexivity.
  assert (H2 : forward transform (Scal (ln 1)) = Raise NotImplementedError)
    by reflexivity.
  assert (H3 : jacobian_det transform (Scal 1) = Raise NotImplementedError)
    by reflexivity.
  split; [exact H1 |]. split; [exact H2 |]. split.
  - exact (proj1 (Chain_first_exception [log] [log] transform (Scal 1)
                    (Scal (ln 1)) (Scal 0) NotImplementedError) H1 H2).
  - exact (proj1 (proj2 (proj2
             (Chain_first_exception [log] [] transform (Scal 1)
                (Scal 0) (Scal 0) NotImplementedError))) H3).
Defined.

Lemma tadd_zero_l (d : tensor) : tadd (Scal 0) d = Ok d.
Proof.
  unfold tadd. rewrite tbin_scal_l. f_equal.
  rewrite <- (tmap_id d) at 2. apply tmap_ext. intros v. apply Rplus_0_l.
Qed.

(** X24: a Chain of one child goes forward and backward as the child,
    and its jacobian_det is the child's whenever the child's backward
    returns and the child's value has no more dimensions than the
    argument. *)
Theorem Chain_single (T : Transform) (y d z : tensor) :
  forward (Chain [T]) y = forward T y /\
  backward (Chain [T]) y = backward T y /\
  (jacobian_det T y = Ok d -> backward T y = Ok z ->
   (ndim d <= ndim y)%nat ->
   jacobian_det (Chain [T]) y = Ok d).
Proof.
  split; [reflexivity |]. split; [reflexivity |].
  intros Hd Hz Hn. cbn [Chain jacobian_det].
  unfold Chain.jacobian_det, aet.as_tensor_variable.
  cbn [rev app fold_left]. rewrite walk_step_ok, Hd, Hz. cbn [bind app].
  cbn [fold_left]. rewrite total_step_ok. unfold reduce_to.
  replace (Nat.min (ndim y) (ndim d) <? ndim d)%nat with false
    by (symmetry; apply Nat.ltb_ge; lia).
  cbn [bind]. apply tadd_zero_l.
Qed.

Lemma Chain_single_witness :
  jacobian_det ordered (vec [1; 2]) = Ok (Scal (Rsum [2])) /\
  (ndim (Scal (Rsum [2]%R)) <= ndim (vec [1; 2]%R))%nat /\
  jacobian_det (Chain [ordered]) (vec [1; 2]) = Ok (Scal (Rsum [2])).
Proof.
  assert (Hd : jacobian_det ordered (vec [1; 2]) = Ok (Scal (Rsum [2])))
    by reflexivity.
  assert (Hn : (ndim (Scal (Rsum [2]%R)) <= ndim (vec [1; 2]%R))%nat)
    by (simpl; lia).
  split; [exact Hd |]. split; [exact Hn |].
  destruct (Ordered_row_left_inverse [1; 2] ltac:(discriminate))
    as (r' & Hb & _).
  refine (proj2 (proj2 (Chain_single ordered (vec [1; 2])
                          (Scal (Rsum [2])) (vec r'))) Hd _ Hn).
  cbn [ordered backward]. unfold Ordered.backward. rewrite rows_vec.
  exact Hb.
Defined.

(** ** Chain.jacobian_det and the chain rule *)

Lemma scalar_fun_ok (f : tensor -> result tensor) (v r : R) :
  f (Scal v) = Ok (Scal r) -> scalar_fun f v = r.
Proof. intros H. unfold scalar_fun. rewrite H. reflexivity. Qed.

(** X25: for two children that work on numbers, when the jacobian_det of
    each is the log of the absolute value of the derivative of its
    backward at the number it is given, and neither derivative is 0,
    the jacobian_det of Chain([A,B]) is the log of the absolute value of
    the derivative of the backward of the Chain. *)
Theorem Chain_jacobian_det_chain_rule (A B : Transform) (fA fB : R -> R)
    (y dA dB : R) :
  (forall v, backward A (Scal v) = Ok (Scal (fA v))) ->
  (forall v, backward B (Scal v) = Ok (Scal (fB v))) ->
  derivable_pt_lim fB y dB ->
  derivable_pt_lim fA (fB y) dA ->
  dA <> 0 -> dB <> 0 ->
  jacobian_det B (Scal y) = Ok (Scal (ln (Rabs dB))) ->
  jacobian_det A (Scal (fB y)) = Ok (Scal (ln (Rabs dA))) ->
  exists d,
    derivable_pt_lim (scalar_fun (backward (Chain [A; B]))) y d /\
    jacobian_det (Chain [A; B]) (Scal y) = Ok (Scal (ln (Rabs d))).
Proof.
  intros HA HB DB DA NA NB JB JA. exists (dA * dB). split.
  - apply (derivable_pt_lim_ext (comp fA fB)).
    + intros v. symmetry. apply scalar_fun_ok.
      cbn [Chain backward]. unfold Chain.backward.
      cbn [rev app fold_left bind]. rewrite HB. cbn [bind]. apply HA.
    + apply derivable_pt_lim_comp; assumption.
  - cbn [Chain jacobian_det].
    unfold Chain.jacobian_det, aet.as_tensor_variable.
    cbn [rev app fold_left]. rewrite walk_step_ok, JB, HB. cbn [bind app].
    rewrite walk_step_ok, JA, HA. cbn [bind app ndim Nat.min fold_left].
    rewrite total_step_ok. unfold reduce_to.
    cbn [ndim Nat.ltb Nat.leb bind]. rewrite tadd_zero_l.
    rewrite total_step_ok. unfold reduce_to.
    cbn [ndim Nat.ltb Nat.leb bind].
    unfold tadd. rewrite tbin_scal_l. cbn [tmap]. do 2 f_equal.
    rewrite Rabs_mult, ln_mult by (apply Rabs_pos_lt; assumption).
    ring.
Qed.

Lemma Chain_jacobian_det_chain_rule_witness :
  exists d,
    derivable_pt_lim (scalar_fun (backward (Chain [log; log]))) 0 d /\
    jacobian_det (Chain [log; log]) (Scal 0) = Ok (Scal (ln (Rabs d))).
Proof.
  apply (Chain_jacobian_det_chain_rule log log exp exp 0
           (exp (exp 0)) (exp 0)).
  - reflexivity.
  - reflexivity.
  - apply derivable_pt_lim_exp.
  - apply derivable_pt_lim_exp.
  - pose proof (exp_pos (exp 0)). lra.
  - pose proof (exp_pos 0). lra.
  - cbn [log jacobian_det]. unfold Log.jacobian_det.
    rewrite ln_abs_exp. reflexivity.
  - cbn [log jacobian_det]. unfold Log.jacobian_det.
    rewrite ln_abs_exp. reflexivity.
Defined.

Lemma tmap_vec (f : R -> R) (l : list R) : tmap f (vec l) = vec (map f l).
Proof. unfold vec. cbn [tmap]. rewrite !map_map. reflexivity. Qed.

(** X26: Chain([log, ordered]) maps a non-empty vector y backward to the
    exponentials of the increasing vector x = Ordered.backward(y), and
    its jacobian_det is the number sum(y[1:]) + sum(x): the vector that
    Log.jacobian_det returns is summed over its axis to meet the number
    that Ordered.jacobian_det returns. *)
Theorem Chain_log_ordered (y0 : R) (ys : list R) :
  exists x,
    Ordered.backward (vec (y0 :: ys)) = Ok (vec x) /\
    backward (Chain [log; ordered]) (vec (y0 :: ys))
    = Ok (vec (map exp x)) /\
    jacobian_det (Chain [log; ordered]) (vec (y0 :: ys))
    = Ok (Scal (Rsum ys + Rsum x)).
Proof.
  exists (cumsum (y0 :: map exp ys)).
  assert (Eb : Ordered.backward (vec (y0 :: ys))
               = Ok (vec (cumsum (y0 :: map exp ys)))).
  { unfold Ordered.backward. rewrite rows_vec.
    apply Ordered_backward_row_eq. }
  assert (Ej : Ordered.jacobian_det (vec (y0 :: ys)) = Ok (Scal (Rsum ys))).
  { unfold Ordered.jacobian_det. rewrite rows_vec. reflexivity. }
  split; [exact Eb |]. split.
  - cbn [Chain backward]. unfold Chain.backward.
    cbn [rev app fold_left bind ordered log backward].
    rewrite Eb. cbn [bind]. unfold Log.backward, aet.exp.
    rewrite tmap_vec. reflexivity.
  - cbn [Chain jacobian_det].
    unfold Chain.jacobian_det, aet.as_tensor_variable.
    cbn [rev app fold_left]. rewrite walk_step_ok.
    cbn [ordered log jacobian_det backward]. rewrite Ej, Eb. cbn [bind app].
    rewrite walk_step_ok. cbn [log jacobian_det backward].
    unfold Log.jacobian_det, Log.backward. cbn [bind app fold_left].
    assert (N : ndim (vec (cumsum (y0 :: map exp ys))) = 1%nat)
      by reflexivity.
    rewrite N. change (ndim (vec (y0 :: ys))) with 1%nat.
    cbn [ndim Nat.min].
    rewrite total_step_ok. unfold reduce_to.
    cbn [ndim Nat.ltb Nat.leb bind]. rewrite tadd_zero_l.
    rewrite total_step_ok. unfold reduce_to. rewrite N.
    cbn [Nat.ltb Nat.leb]. unfold sum_last. rewrite reduce_rows_vec.
    cbn [bind].
    unfold tadd. rewrite tbin_scal_l. reflexivity.
Qed.

(** ** TransformedDistribution *)

(** X27: for a distribution whose log-density acts on every entry,
    TransformedDistribution.logp with Log at a number v is the
    log-density at exp(v) plus v; with Ordered at a non-empty vector y
    it is the number sum of the log-densities at the entries of
    x = Ordered.backward(y) plus sum(y[1:]): the vector of log-densities
    is summed over its axis to meet the number that
    Ordered.jacobian_det returns. *)
Theorem TransformedDistribution_logp (l : R -> R) (v y0 : R)
    (ys : list R) :
  TransformedDistribution.logp (fun z => Ok (tmap l z)) log (Scal v)
  = Ok (Scal (l (exp v) + v)) /\
  exists x,
    Ordered.backward (vec (y0 :: ys)) = Ok (vec x) /\
    TransformedDistribution.logp (fun z => Ok (tmap l z)) ordered
                                 (vec (y0 :: ys))
    = Ok (Scal (Rsum (map l x) + Rsum ys)).
Proof.
  split; [reflexivity |].
  exists (cumsum (y0 :: map exp ys)).
  assert (Eb : Ordered.backward (vec (y0 :: ys))
               = Ok (vec (cumsum (y0 :: map exp ys)))).
  { unfold Ordered.backward. rewrite rows_vec.
    apply Ordered_backward_row_eq. }
  assert (Ej : Ordered.jacobian_det (vec (y0 :: ys)) = Ok (Scal (Rsum ys))).
  { unfold Ordered.jacobian_det. rewrite rows_vec. reflexivity. }
  split; [exact Eb |].
  unfold TransformedDistribution.logp, TransformedDistribution.logp_nojac.
  cbn [ordered backward jacobian_det]. rewrite Eb, Ej. cbn [bind].
  rewrite tmap_vec.
  assert (N : ndim (vec (map l (cumsum (y0 :: map exp ys)))) = 1%nat)
    by reflexivity.
  rewrite N. cbn [ndim Nat.ltb Nat.leb].
  unfold sum_last. rewrite reduce_rows_vec. cbn [bind]. reflexivity.
Qed.

(** X28: when the backward of the transform raises, logp_nojac and logp
    of TransformedDistribution raise the same exception, whatever the
    distribution and the transform's jacobian_det are; with the abstract
    Transform this is NotImplementedError. *)
Theorem TransformedDistribution_exceptions
    (dist_logp : tensor -> result tensor) (T : Transform) (x : tensor)
    (e : exn) :
  backward T x = Raise e ->
  TransformedDistribution.logp_nojac dist_logp T x = Raise e /\
  TransformedDistribution.logp dist_logp T x = Raise e.
Proof.
  intros H.
  unfold TransformedDistribution.logp, TransformedDistribution.logp_nojac.
  rewrite H. split; reflexivity.
Qed.

Lemma TransformedDistribution_exceptions_witness :
  backward transform (Scal 0) = Raise NotImplementedError /\
  TransformedDistribution.logp_nojac (fun z => Ok z) transform (Scal 0)
  = Raise NotImplementedError /\
  TransformedDistribution.logp (fun z => Ok z) transform (Scal 0)
  = Raise NotImplementedError.
Proof.
  assert (H : backward transform (Scal 0) = Raise NotImplementedError)
    by reflexivity.
  split; [exact H |].
  exact (TransformedDistribution_exceptions (fun z => Ok z) transform
           (Scal 0) NotImplementedError H).
Defined.
